(** * Huffman codec of [interface.py] and the ON/OFF controller of
    [tclab_onoff_7days.py]: a shallow embedding and its verification.

    The Python code is modelled as it is written:
    - [bytes] values are lists of [byte], [str] values lists of [ascii];
    - a Python [dict] is an association list in insertion order, with the
      in-place overwrite of [d[k] = v];
    - [heapq] is the reference implementation of CPython's [Lib/heapq.py],
      on a list indexed with stdpp's lookup and insert;
    - the [while] loops carry a fuel argument that is shown to suffice;
    - a call either returns or raises ([outcome]);
    - the timing values ([perf_counter]) returned next to the results are
      left out: no claim is about them. *)

From Stdlib Require Import Ascii String Strings.Byte Floats ZArith Lia ZifyNat.
From Stdlib Require Uint63.
From stdpp Require Import base list strings.

Open Scope nat_scope.

(** ** Python values *)

(** A [str] literal. *)
Definition lit (s : string) : list ascii := list_ascii_of_string s.

#[global] Instance byte_eq_decision : EqDecision byte := byte_eq_dec.

(** What a call does: it returns a value or raises. *)
Inductive exn : Type :=
| KeyError (key : byte).

Inductive outcome (A : Type) : Type :=
| Returned (value : A)
| Raised (error : exn).
Arguments Returned {A} value.
Arguments Raised {A} error.

Definition bind {A B : Type} (m : outcome A) (k : A → outcome B) : outcome B :=
  match m with
  | Returned a => k a
  | Raised e => Raised e
  end.

Definition is_failure {A : Type} (m : outcome A) : Prop :=
  ∃ e, m = Raised e.

(** ** Dictionaries, in insertion order *)

Section dict.
Context {K V : Type} `{EqDecision K}.

(** [d.get(k)] *)
Fixpoint dict_get (d : list (K * V)) (k : K) : option V :=
  match d with
  | [] => None
  | (k', v) :: d' => if decide (k = k') then Some v else dict_get d' k
  end.

(** [d[k] = v]: an existing key keeps its place, a new one goes last. *)
Fixpoint dict_set (d : list (K * V)) (k : K) (v : V) : list (K * V) :=
  match d with
  | [] => [(k, v)]
  | (k', v') :: d' =>
      if decide (k = k') then (k', v) :: d' else (k', v') :: dict_set d' k v
  end.

End dict.

(** [Counter(data_bytes)]: one count per distinct byte, first seen first. *)
Definition count_step (freq : list (byte * nat)) (b : byte) : list (byte * nat) :=
  dict_set freq b (default 0 (dict_get freq b) + 1).

Definition Counter (data_bytes : list byte) : list (byte * nat) :=
  foldl count_step [] data_bytes.

(** ** [HuffmanNode] *)

(** [byte_val] is [None] exactly on the nodes made by a merge, which are
    the ones that get children. *)
Inductive HuffmanNode : Type :=
| Leaf (byte_val : byte) (freq : nat)
| Internal (freq : nat) (left right : HuffmanNode).

Definition freq (n : HuffmanNode) : nat :=
  match n with
  | Leaf _ f => f
  | Internal f _ _ => f
  end.

(** [HuffmanNode.__lt__] *)
Definition node_lt (self other : HuffmanNode) : bool :=
  freq self <? freq other.

(** ** [heapq] *)

Module heapq.
Section heapq.
Context {A : Type} (lt : A → A → bool).

(** The loop of [_siftdown(heap, startpos, pos)]; [pos] bounds its length. *)
Fixpoint siftdown_loop (fuel : nat) (heap : list A) (startpos pos : nat)
    (newitem : A) : list A :=
  match fuel with
  | 0 => <[pos := newitem]> heap
  | S fuel' =>
      if startpos <? pos then
        let parentpos := (pos - 1) / 2 in
        match heap !! parentpos with
        | Some parent =>
            if lt newitem parent
            then siftdown_loop fuel' (<[pos := parent]> heap) startpos parentpos newitem
            else <[pos := newitem]> heap
        | None => <[pos := newitem]> heap
        end
      else <[pos := newitem]> heap
  end.

Definition siftdown (heap : list A) (startpos pos : nat) : list A :=
  match heap !! pos with
  | Some newitem => siftdown_loop pos heap startpos pos newitem
  | None => heap
  end.

(** The loop of [_siftup(heap, pos)]: the smaller child moves up until a
    leaf is reached. It returns the heap and the final [pos]. *)
Fixpoint siftup_loop (fuel : nat) (heap : list A) (pos : nat) : list A * nat :=
  match fuel with
  | 0 => (heap, pos)
  | S fuel' =>
      let endpos := length heap in
      let childpos := 2 * pos + 1 in
      if childpos <? endpos then
        let rightpos := childpos + 1 in
        let childpos :=
          match heap !! childpos, heap !! rightpos with
          | Some c, Some r => if negb (lt c r) then rightpos else childpos
          | _, _ => childpos
          end in
        match heap !! childpos with
        | Some c => siftup_loop fuel' (<[pos := c]> heap) childpos
        | None => (heap, pos)
        end
      else (heap, pos)
  end.

Definition siftup (heap : list A) (pos : nat) : list A :=
  match heap !! pos with
  | Some newitem =>
      let '(heap', pos') := siftup_loop (length heap) heap pos in
      siftdown (<[pos' := newitem]> heap') pos pos'
  | None => heap
  end.

(** [heappush(heap, item)] *)
Definition heappush (heap : list A) (item : A) : list A :=
  siftdown (heap ++ [item]) 0 (length heap).

(** [heappop(heap)]: the popped item and the heap left; [None] stands for
    the [IndexError] on an empty heap. *)
Definition heappop (heap : list A) : option (A * list A) :=
  match last heap with
  | None => None
  | Some lastelt =>
      match removelast heap with
      | [] => Some (lastelt, [])
      | returnitem :: rest =>
          Some (returnitem, siftup (lastelt :: rest) 0)
      end
  end.

(** [heapify(x)] *)
Definition heapify (x : list A) : list A :=
  foldl siftup x (rev (seq 0 (length x / 2))).

End heapq.
End heapq.

(** ** The codec of [interface.py] *)

(** The [while len(heap) > 1] loop of [build_huffman_tree_from_bytes]. *)
Fixpoint merge_loop (fuel : nat) (heap : list HuffmanNode) : list HuffmanNode :=
  match fuel with
  | 0 => heap
  | S fuel' =>
      if 1 <? length heap then
        match heapq.heappop node_lt heap with
        | Some (left_, heap1) =>
            match heapq.heappop node_lt heap1 with
            | Some (right_, heap2) =>
                let merged := Internal (freq left_ + freq right_) left_ right_ in
                merge_loop fuel' (heapq.heappush node_lt heap2 merged)
            | None => heap
            end
        | None => heap
        end
      else heap
  end.

Definition build_huffman_tree_from_bytes (data_bytes : list byte)
    : option HuffmanNode :=
  let freq := Counter data_bytes in
  let heap := heapq.heapify node_lt (fmap (λ bf, Leaf bf.1 bf.2) freq) in
  match heap with
  | [] => None
  | _ => head (merge_loop (length heap) heap)
  end.

(** [prefix or "0"] *)
Definition or_zero (prefix : list ascii) : list ascii :=
  match prefix with
  | [] => lit "0"
  | _ => prefix
  end.

(** The inner [walk(node, prefix)], threading the [codes] it fills. The
    test [node is None] never holds here: a merged node has both children. *)
Fixpoint walk (node : HuffmanNode) (prefix : list ascii)
    (codes : list (byte * list ascii)) : list (byte * list ascii) :=
  match node with
  | Leaf byte_val _ => dict_set codes byte_val (or_zero prefix)
  | Internal _ left_ right_ =>
      walk right_ (prefix ++ lit "1") (walk left_ (prefix ++ lit "0") codes)
  end.

Definition build_codes_from_tree (root : option HuffmanNode)
    : list (byte * list ascii) :=
  match root with
  | None => []
  | Some node => walk node [] []
  end.

(** ["".join(codes[b] for b in data_bytes)]: a missing key raises. *)
Fixpoint encode_bits (codes : list (byte * list ascii)) (data_bytes : list byte)
    : outcome (list ascii) :=
  match data_bytes with
  | [] => Returned []
  | b :: data' =>
      match dict_get codes b with
      | None => Raised (KeyError b)
      | Some code =>
          bind (encode_bits codes data') (λ tail, Returned (code ++ tail))
      end
  end.

(** [huffman_compress_bytes]: [(encoded_bits, codes)]. *)
Definition huffman_compress_bytes (data_bytes : list byte)
    : outcome (list ascii * list (byte * list ascii)) :=
  match build_huffman_tree_from_bytes data_bytes with
  | None => Returned ([], [])
  | Some root =>
      let codes := build_codes_from_tree (Some root) in
      bind (encode_bits codes data_bytes) (λ encoded_bits,
      Returned (encoded_bits, codes))
  end.

(** [{v: k for k, v in codes.items()}] *)
Definition rev_step (m : list (list ascii * byte)) (kv : byte * list ascii)
    : list (list ascii * byte) :=
  dict_set m kv.2 kv.1.

Definition reverse_of (codes : list (byte * list ascii))
    : list (list ascii * byte) :=
  foldl rev_step [] codes.

(** The [for bit in encoded_bits] loop: the bytes decoded and the buffer. *)
Fixpoint decode_loop (reverse_map : list (list ascii * byte))
    (encoded_bits : list ascii) (cur : list ascii) (decoded_bytes : list byte)
    : list byte * list ascii :=
  match encoded_bits with
  | [] => (decoded_bytes, cur)
  | bit :: rest =>
      let cur := cur ++ [bit] in
      match dict_get reverse_map cur with
      | Some b => decode_loop reverse_map rest [] (decoded_bytes ++ [b])
      | None => decode_loop reverse_map rest cur decoded_bytes
      end
  end.

(** [huffman_decompress_bits]: the function has no [raise] and no operation
    that can fail, so every path is a [Returned]. *)
Definition huffman_decompress_bits (encoded_bits : list ascii)
    (codes : list (byte * list ascii)) : outcome (list byte) :=
  let reverse_map := reverse_of codes in
  Returned (decode_loop reverse_map encoded_bits [] []).1.

(** ** [onoff_control] of [tclab_onoff_7days.py], on binary64 floats *)

(** [temp] and [deadband] are Python floats; the caller's setpoints are
    small ints, which [setpoint - deadband] and [setpoint + deadband]
    convert to the floats of the same value. [temp > x] is [x < temp]. *)

Definition onoff_control (temp setpoint deadband : float) (last_val : Z) : Z :=
  if (temp <? setpoint - deadband)%float then 100%Z
  else if (setpoint + deadband <? temp)%float then 0%Z
  else last_val.

(** ** Vocabulary of the specification *)

(** A [bytes] literal. *)
Definition blit (s : string) : list byte := list_byte_of_string s.

(** No two symbols of the table share a code. *)
Definition table_injective (codes : list (byte * list ascii)) : Prop :=
  ∀ a b wa wb,
    dict_get codes a = Some wa → dict_get codes b = Some wb → a ≠ b → wa ≠ wb.

(** No symbol's code is a prefix of another symbol's code. *)
Definition table_prefix_free (codes : list (byte * list ascii)) : Prop :=
  ∀ a b wa wb,
    dict_get codes a = Some wa → dict_get codes b = Some wb → a ≠ b →
    ¬ wa `prefix_of` wb.

(** [len(codes[b])], 0 without an entry. *)
Definition code_len (codes : list (byte * list ascii)) (b : byte) : nat :=
  length (default [] (dict_get codes b)).

(** The sum over the symbols of a frequency table of
    [frequency(symbol) × length(code(symbol))]. *)
Definition weighted_cost (freqs : list (byte * nat))
    (codes : list (byte * list ascii)) : nat :=
  sum_list (fmap (λ bf, bf.2 * code_len codes bf.1) freqs).

(** The buffer [cur] left when the decoding loop ends. *)
Definition final_buffer (encoded_bits : list ascii)
    (codes : list (byte * list ascii)) : list ascii :=
  (decode_loop (reverse_of codes) encoded_bits [] []).2.

(** A list of code words in which no word is a prefix of a word at another
    place of the list (so no word occurs twice either). *)
Fixpoint pfree (ws : list (list ascii)) : Prop :=
  match ws with
  | [] => True
  | w :: ws' =>
      (∀ v, v ∈ ws' → ¬ w `prefix_of` v ∧ ¬ v `prefix_of` w) ∧ pfree ws'
  end.

(** The decoder emits [b] on the buffer [w]: [w] is a code word of the
    table, [b] is what the reverse map has for it, and no shorter non-empty
    prefix of [w] is a code word. *)
Definition first_match (codes : list (byte * list ascii))
    (w : list ascii) (b : byte) : Prop :=
  dict_get (reverse_of codes) w = Some b ∧ w ≠ [] ∧
  ∀ p, p ≠ [] → p `prefix_of` w → p ≠ w → p ∉ codes.*2.

(** No non-empty prefix of [w] is a code of the table. *)
Definition unmatched (codes : list (byte * list ascii)) (w : list ascii) : Prop :=
  ∀ p, p ≠ [] → p `prefix_of` w → p ∉ codes.*2.

(** ** Vocabulary of the heap invariant *)

(** The sort key at index [i] of a heap, 0 past its end. *)
Definition key_at {A : Type} (key : A → nat) (h : list A) (i : nat) : nat :=
  from_option key 0 (h !! i).

(** [heap_above key lo h]: every node whose parent sits at index [lo] or
    above is not smaller than that parent. [heap_above key 0 h] is the
    heap invariant of [heapq]. *)
Definition heap_above {A : Type} (key : A → nat) (lo : nat) (h : list A) : Prop :=
  ∀ j, 0 < j → j < length h → lo ≤ (j - 1) / 2 →
    key_at key h ((j - 1) / 2) ≤ key_at key h j.

(** [below s p]: index [p] is [s] or lies in the subtree under [s]. *)
Inductive below (s : nat) : nat → Prop :=
| below_refl : below s s
| below_child p c : below s p → 0 < c → (c - 1) / 2 = p → below s c.

(** ** Vocabulary of Huffman trees *)

(** The symbols of a tree with their frequencies, left to right. *)
Fixpoint leaves (t : HuffmanNode) : list (byte * nat) :=
  match t with
  | Leaf b f => [(b, f)]
  | Internal _ l r => leaves l ++ leaves r
  end.

Definition forest_leaves (heap : list HuffmanNode) : list (byte * nat) :=
  concat (fmap leaves heap).

(** The path from the root to each leaf, left to right. *)
Fixpoint paths (t : HuffmanNode) : list (byte * list ascii) :=
  match t with
  | Leaf b _ => [(b, [])]
  | Internal _ l r =>
      fmap (λ bw, (bw.1, "0"%char :: bw.2)) (paths l)
      ++ fmap (λ bw, (bw.1, "1"%char :: bw.2)) (paths r)
  end.

(** The sum of the leaf frequencies. *)
Fixpoint wsum (t : HuffmanNode) : nat :=
  match t with
  | Leaf _ f => f
  | Internal _ l r => wsum l + wsum r
  end.

(** The sum over the leaves of frequency × depth. *)
Fixpoint cost (t : HuffmanNode) : nat :=
  match t with
  | Leaf _ _ => 0
  | Internal _ l r => cost l + cost r + wsum l + wsum r
  end.

(** The [freq] field of every merged node is the sum of its children's. *)
Fixpoint freq_ok (t : HuffmanNode) : Prop :=
  match t with
  | Leaf _ _ => True
  | Internal f l r => f = freq l + freq r ∧ freq_ok l ∧ freq_ok r
  end.

(** Huffman's algorithm with the choices left open: a forest is reduced to
    one tree by merging, each time, two trees of least frequency, whatever
    the order of the forest and whichever trees win a tie. *)
Inductive huffman_merge : list HuffmanNode → HuffmanNode → Prop :=
| huffman_done t : huffman_merge [t] t
| huffman_step F G a b F' t :
    F ≡ₚ a :: b :: F' →
    freq a ≤ freq b →
    (∀ c, c ∈ F' → freq b ≤ freq c) →
    G ≡ₚ Internal (freq a + freq b) a b :: F' →
    huffman_merge G t →
    huffman_merge F t.

(** The table that [build_codes_from_tree] fills from a tree: each leaf
    with [prefix or "0"] for its path. *)
Definition code_table (t : HuffmanNode) : list (byte * list ascii) :=
  fmap (λ bw, (bw.1, or_zero bw.2)) (paths t).

(** ** Vocabulary of the optimality argument *)

Definition is_bit (c : ascii) : Prop := c = "0"%char ∨ c = "1"%char.

(** A code word over the binary alphabet. *)
Definition binary (w : list ascii) : Prop := Forall is_bit w.

(** The other bit. *)
Definition flip_bit (c : ascii) : ascii :=
  if decide (c = "0"%char) then "1"%char else "0"%char.

(** A code given as a list of entries (frequency, code word): its weighted
    length and the total length of its words. *)
Definition ecost (E : list (nat * list ascii)) : nat :=
  sum_list (fmap (λ e, e.1 * length e.2) E).

Definition total_len (E : list (nat * list ascii)) : nat :=
  sum_list (fmap (λ e, length e.2) E).

(** The entries of a table for the symbols of a frequency table. *)
Definition entries (freqs : list (byte * nat))
    (codes : list (byte * list ascii)) : list (nat * list ascii) :=
  fmap (λ bf, (bf.2, default [] (dict_get codes bf.1))) freqs.

(** No code word of a symbol of [symbols] is a prefix of the code word of
    another symbol of [symbols]. *)
Definition prefix_free_on (symbols : list byte)
    (codes : list (byte * list ascii)) : Prop :=
  ∀ a b wa wb,
    a ∈ symbols → b ∈ symbols → a ≠ b →
    dict_get codes a = Some wa → dict_get codes b = Some wb →
    ¬ wa `prefix_of` wb.

(** A prefix-free binary code for the symbols of [freqs], as the data model
    of the specification has it: every symbol has a code word, a non-empty
    sequence of the bits "0" and "1", and no symbol's code word is a prefix
    of another symbol's. *)
Definition prefix_code (freqs : list (byte * nat))
    (codes : list (byte * list ascii)) : Prop :=
  (∀ b, b ∈ freqs.*1 → ∃ w, dict_get codes b = Some w ∧ w ≠ [] ∧ binary w) ∧
  prefix_free_on freqs.*1 codes.

(** The code of a tree as a list of entries: the frequency of each leaf
    with its path. *)
Fixpoint tree_entries (t : HuffmanNode) : list (nat * list ascii) :=
  match t with
  | Leaf _ f => [(f, [])]
  | Internal _ l r =>
      fmap (λ e, (e.1, "0"%char :: e.2)) (tree_entries l)
      ++ fmap (λ e, (e.1, "1"%char :: e.2)) (tree_entries r)
  end.

(** The weighted length of the table of a tree: a lone leaf gets the
    one-bit code "0", any other tree the paths to its leaves. *)
Definition table_cost (t : HuffmanNode) : nat :=
  match t with
  | Leaf _ f => f
  | Internal _ _ _ => cost t
  end.

(** ** The caller of the codec in [interface.py] *)

(** The dictionary that [compress_decompress_cached] returns, without its
    two timing entries. *)
Record cached_info : Type := {
  info_encoded_bits : list ascii;
  info_codes_map : list (byte * list ascii);
  info_compressed_bytes_est : nat;
  info_decoded_bytes : list byte
}.

(** [compress_decompress_cached]; [st.cache_data] only memoizes it. *)
Definition compress_decompress_cached (file_bytes_blob : list byte)
    : outcome cached_info :=
  bind (huffman_compress_bytes file_bytes_blob) (λ compressed,
  let encoded_bits := compressed.1 in
  let codes_map := compressed.2 in
  let compressed_bytes_est := (length encoded_bits + 7) / 8 in
  bind (huffman_decompress_bits encoded_bits codes_map) (λ decoded_bytes,
  Returned {| info_encoded_bits := encoded_bits;
              info_codes_map := codes_map;
              info_compressed_bytes_est := compressed_bytes_est;
              info_decoded_bytes := decoded_bytes |})).

(** The test [decoded_bytes != file_bytes] that guards [st.warning]. *)
Definition integrity_warning (file_bytes : list byte) : outcome bool :=
  bind (compress_decompress_cached file_bytes) (λ info,
  Returned (bool_decide (info_decoded_bytes info ≠ file_bytes))).

(** ** The control loop of [tclab_onoff_7days.py] *)

(** [25 + 5 * ((t // 43200) % 2)] and [23 + 5 * ((t // 43200) % 2)] *)
Definition sp1_at (t : Z) : Z := (25 + 5 * ((t / 43200) mod 2))%Z.
Definition sp2_at (t : Z) : Z := (23 + 5 * ((t / 43200) mod 2))%Z.

(** The float of a small non-negative int, as [setpoint - deadband] makes
    it from an int setpoint. *)
Definition int_to_float (z : Z) : float :=
  PrimFloat.of_uint63 (Uint63.of_Z z).

(** One entry of [rows], without its wall-clock ["datetime"]. *)
Record row : Type := {
  time_s : Z;
  T1 : float;
  T2 : float;
  Q1 : Z;
  Q2 : Z;
  SP1 : Z;
  SP2 : Z
}.

(** [range(n)]: empty for a negative [n]. *)
Definition range (n : Z) : list Z := Z.of_nat <$> seq 0 (Z.to_nat n).

(** How a call of the lab or of [time.sleep] ends: it returns a value, or
    it raises; both leave a state of the lab. Of what is raised the loop
    tells only [KeyboardInterrupt] from the rest. *)
Inductive raised : Type :=
| KeyboardInterrupt
| Exception (name : string).

Inductive call_result (lab A : Type) : Type :=
| Done (value : A) (st : lab)
| Fails (e : raised) (st : lab).
Arguments Done {lab A} value st.
Arguments Fails {lab A} e st.

Definition returns {lab A : Type} (c : call_result lab A) : Prop :=
  ∃ value st, c = Done value st.

Definition fails {lab A : Type} (c : call_result lab A) : Prop :=
  ∃ e st, c = Fails e st.

(** The next call when this one returns; what this one raised otherwise. *)
Definition and_then {lab A B : Type} (c : call_result lab A)
    (k : A → lab → call_result lab B) : call_result lab B :=
  match c with
  | Done value st => k value st
  | Fails e st => Fails e st
  end.

(** The same inside the loop, where [rows] is what was collected when the
    call raises. *)
Definition attempt {lab A B : Type} (c : call_result lab A) (rows : list row)
    (k : A → lab → call_result lab B * list row)
    : call_result lab B * list row :=
  match c with
  | Done value st => k value st
  | Fails e st => (Fails e st, rows)
  end.

Section tclab.
(** The lab is a parameter: its state, [TCLab()] that makes it, the reads
    of [lab.T1] and [lab.T2] (which may advance the simulation), the writes
    [lab.Q1(q)] and [lab.Q2(q)], [time.sleep(secs)] and [lab.close()]. Each
    of them may raise: [time.sleep] raises for a negative or NaN [secs]
    ([ValueError], or [OverflowError] outside the range of the clock), and
    any of them [KeyboardInterrupt] when the user interrupts the run. *)
Context {lab : Type}.
Context (TCLab : lab → call_result lab unit).
Context (read_T1 read_T2 : lab → call_result lab float).
Context (set_Q1 set_Q2 : lab → Z → call_result lab unit).
Context (sleep : float → lab → call_result lab unit).
Context (close : lab → call_result lab unit).

(** The body of [for t in range(total_seconds)], over the values of [t]:
    how the loop ends and the [rows] collected until then. The messages
    printed are left out. *)
Fixpoint control_loop (sleep_real deadband : float) (ts : list Z) (st : lab)
    (last_q1 last_q2 : Z) (rows : list row)
    : call_result lab unit * list row :=
  match ts with
  | [] => (Done tt st, rows)
  | t :: ts' =>
      attempt (read_T1 st) rows (λ T1, λ st,
      attempt (read_T2 st) rows (λ T2, λ st,
      let sp1 := sp1_at t in
      let sp2 := sp2_at t in
      let q1 := onoff_control T1 (int_to_float sp1) deadband last_q1 in
      let q2 := onoff_control T2 (int_to_float sp2) deadband last_q2 in
      attempt (set_Q1 st q1) rows (λ _, λ st,
      attempt (set_Q2 st q2) rows (λ _, λ st,
      let new_row := {| time_s := t; T1 := T1; T2 := T2;
                        Q1 := q1; Q2 := q2; SP1 := sp1; SP2 := sp2 |} in
      let rows := rows ++ [new_row] in
      attempt (sleep sleep_real st) rows (λ _, λ st,
      control_loop sleep_real deadband ts' st q1 q2 rows)))))
  end.

(** The [finally] block: [lab.Q1(0)], [lab.Q2(0)], [lab.close()]. *)
Definition finally_block (st : lab) : call_result lab unit :=
  and_then (set_Q1 st 0%Z) (λ _, λ st,
  and_then (set_Q2 st 0%Z) (λ _, λ st,
  close st)).

(** [main] from [sleep_real = 1.0 / args.accelerate] to the end of the
    [try] statement, for the [total_seconds] of line 48: how it ends, and
    the [rows] collected. The division raises for a zero [accelerate]. The
    [except] clause handles a [KeyboardInterrupt] of the loop, after which
    [main] goes on as after a loop that ran out; anything else raised in
    the loop is raised again after the [finally] block. *)
Definition simulate (total_seconds : Z) (accelerate deadband : float)
    (st0 : lab) : call_result lab unit * list row :=
  if (accelerate =? 0)%float
  then (Fails (Exception "ZeroDivisionError") st0, [])
  else
    let sleep_real := (1 / accelerate)%float in
    attempt (TCLab st0) [] (λ _, λ st,
    attempt (set_Q1 st 0%Z) [] (λ _, λ st,
    attempt (set_Q2 st 0%Z) [] (λ _, λ st,
    let body := control_loop sleep_real deadband (range total_seconds)
                  st 0%Z 0%Z [] in
    match body.1 with
    | Done _ st | Fails KeyboardInterrupt st => (finally_block st, body.2)
    | Fails e st => (and_then (finally_block st) (λ _, λ st, Fails e st), body.2)
    end))).

End tclab.

(** A lab whose state is the number of calls made, each of which returns,
    but for [time.sleep] with a negative or NaN argument: the reads give
    the two temperatures below. *)
Module steady_lab.
Definition TCLab (st : nat) : call_result nat unit := Done tt (S st).
Definition read_T1 (st : nat) : call_result nat float := Done 20%float (S st).
Definition read_T2 (st : nat) : call_result nat float := Done 31%float (S st).
Definition set_Q (st : nat) (q : Z) : call_result nat unit := Done tt (S st).
Definition sleep (secs : float) (st : nat) : call_result nat unit :=
  if (PrimFloat.is_nan secs || (secs <? 0)%float)%bool
  then Fails (Exception "ValueError") st
  else Done tt (S st).
Definition close (st : nat) : call_result nat unit := Done tt (S st).
End steady_lab.

(** ** Vocabulary of the further properties *)

(** On every merged node the left child is not heavier than the right. *)
Fixpoint left_le_right (t : HuffmanNode) : Prop :=
  match t with
  | Leaf _ _ => True
  | Internal _ l r => freq l ≤ freq r ∧ left_le_right l ∧ left_le_right r
  end.

(** The number of occurrences of [b] in [data]. *)
Definition occurrences (b : byte) (data : list byte) : nat :=
  length (filter (λ x, x = b) data).

Definition bit_char (x : bool) : ascii := if x then "1"%char else "0"%char.

(** The eight bits of a byte, most significant first: the fixed-length
    code that stores the input as it is. *)
Definition bits8 (b : byte) : list ascii :=
  match Byte.to_bits b with
  | (b0, (b1, (b2, (b3, (b4, (b5, (b6, b7))))))) =>
      bit_char <$> [b7; b6; b5; b4; b3; b2; b1; b0]
  end.

(** Each entry [Q1] (resp. [Q2]) of a list of rows is what [onoff_control]
    returns for the row's temperature and setpoint and the previous
    output, [last_q1] (resp. [last_q2]) before the first row. *)
Fixpoint controlled (deadband : float) (last_q1 last_q2 : Z)
    (rows : list row) : Prop :=
  match rows with
  | [] => True
  | r :: rows' =>
      Q1 r = onoff_control (T1 r) (int_to_float (SP1 r)) deadband last_q1 ∧
      Q2 r = onoff_control (T2 r) (int_to_float (SP2 r)) deadband last_q2 ∧
      controlled deadband (Q1 r) (Q2 r) rows'
  end.

(** The output before row [i]: 0 before the first row. *)
Definition q1_before (rows : list row) (i : nat) : Z :=
  match i with
  | 0 => 0%Z
  | S j => from_option Q1 0%Z (rows !! j)
  end.

Definition q2_before (rows : list row) (i : nat) : Z :=
  match i with
  | 0 => 0%Z
  | S j => from_option Q2 0%Z (rows !! j)
  end.

(** * Proofs *)

(** ** Dictionaries *)

Section dict_facts.
Context {K V : Type} `{EqDecision K}.
Implicit Types (d : list (K * V)) (k : K) (v : V).

Lemma dict_get_Some_elem d k v : dict_get d k = Some v → (k, v) ∈ d.
Proof.
  induction d as [|[k' v'] d IH]; simpl; [done|].
  case_decide; intros Hg.
  - simplify_eq. left.
  - right. auto.
Qed.

Lemma dict_get_None d k : dict_get d k = None ↔ k ∉ d.*1.
Proof.
  induction d as [|[k' v'] d IH]; simpl.
  - split; [intros _; apply not_elem_of_nil | done].
  - rewrite not_elem_of_cons. case_decide; [naive_solver|]. rewrite IH. naive_solver.
Qed.

Lemma dict_get_is_Some d k : is_Some (dict_get d k) ↔ k ∈ d.*1.
Proof.
  rewrite <- not_eq_None_Some, dict_get_None.
  split; [apply dec_stable | auto].
Qed.

Lemma dict_get_NoDup d k v :
  NoDup d.*1 → (k, v) ∈ d → dict_get d k = Some v.
Proof.
  induction d as [|[k' v'] d IH]; simpl; intros Hnd Hin.
  - by apply elem_of_nil in Hin.
  - apply NoDup_cons in Hnd as [Hk Hnd].
    apply elem_of_cons in Hin as [Heq|Hin].
    + simplify_eq. by rewrite decide_True.
    + rewrite decide_False; [auto|].
      intros ->. apply Hk. apply (list_elem_of_fmap_2 fst) in Hin. done.
Qed.

Lemma dict_set_fresh d k v : k ∉ d.*1 → dict_set d k v = d ++ [(k, v)].
Proof.
  induction d as [|[k' v'] d IH]; simpl; [done|].
  rewrite not_elem_of_cons. intros [Hne Hk].
  rewrite decide_False by done. by rewrite IH.
Qed.

Lemma dict_set_keys_present d k v : k ∈ d.*1 → (dict_set d k v).*1 = d.*1.
Proof.
  induction d as [|[k' v'] d IH]; simpl.
  - intros Hin. by apply elem_of_nil in Hin.
  - intros Hin. case_decide; simpl; [done|].
    f_equal. apply IH. apply elem_of_cons in Hin as [?|?]; [done|done].
Qed.

Lemma dict_get_set d k k' v :
  dict_get (dict_set d k v) k' = if decide (k' = k) then Some v else dict_get d k'.
Proof.
  induction d as [|[k0 v0] d IH]; simpl.
  - done.
  - destruct (decide (k = k0)) as [->|Hne]; simpl.
    + destruct (decide (k' = k0)); done.
    + destruct (decide (k' = k0)) as [->|?]; simpl.
      * by rewrite decide_False.
      * apply IH.
Qed.

Lemma dict_set_NoDup d k v : NoDup d.*1 → NoDup (dict_set d k v).*1.
Proof.
  intros Hnd. destruct (decide (k ∈ d.*1)) as [Hin|Hin].
  - by rewrite dict_set_keys_present.
  - rewrite dict_set_fresh by done. rewrite fmap_app. simpl.
    apply NoDup_app. split_and!; [done| |apply NoDup_singleton].
    intros x Hx Hx'. apply list_elem_of_singleton in Hx'. by subst.
Qed.

End dict_facts.

(** ** [Counter] *)

Lemma Counter_unfold data : Counter data = foldl count_step [] data.
Proof. done. Qed.

Lemma count_fold_NoDup data d :
  NoDup d.*1 → NoDup (foldl count_step d data).*1.
Proof.
  revert d. induction data as [|b data IH]; intros d Hd; simpl; [done|].
  apply IH. by apply dict_set_NoDup.
Qed.

Lemma dict_set_keys_elem (d : list (byte * nat)) k v x :
  x ∈ (dict_set d k v).*1 ↔ x = k ∨ x ∈ d.*1.
Proof.
  destruct (decide (k ∈ d.*1)) as [Hin|Hin].
  - rewrite dict_set_keys_present by done. naive_solver.
  - rewrite dict_set_fresh by done. rewrite fmap_app, elem_of_app. simpl.
    rewrite list_elem_of_singleton. naive_solver.
Qed.

Lemma count_fold_keys data d x :
  x ∈ (foldl count_step d data).*1 ↔ x ∈ d.*1 ∨ x ∈ data.
Proof.
  revert d. induction data as [|b data IH]; intros d; simpl.
  - rewrite elem_of_nil. naive_solver.
  - rewrite IH. unfold count_step. rewrite dict_set_keys_elem, elem_of_cons.
    naive_solver.
Qed.

Lemma Counter_NoDup data : NoDup (Counter data).*1.
Proof. apply count_fold_NoDup. simpl. apply NoDup_nil_2. Qed.

Lemma Counter_keys data x : x ∈ (Counter data).*1 ↔ x ∈ data.
Proof.
  rewrite Counter_unfold, count_fold_keys. simpl. rewrite elem_of_nil. naive_solver.
Qed.

Lemma Counter_nil_inv data : Counter data = [] → data = [].
Proof.
  intros HC. destruct data as [|b data]; [done|].
  assert (b ∈ (Counter (b :: data)).*1) as Hb by (apply Counter_keys; left).
  rewrite HC in Hb. by apply elem_of_nil in Hb.
Qed.

(** The count of a byte is the number of its occurrences. *)
Lemma count_fold_get data d b :
  default 0 (dict_get (foldl count_step d data) b)
  = default 0 (dict_get d b) + length (filter (λ x, x = b) data).
Proof.
  revert d. induction data as [|a data IH]; intros d; simpl; [lia|].
  rewrite IH. unfold count_step. rewrite dict_get_set.
  rewrite filter_cons. destruct (decide (b = a)) as [->|Hne].
  - rewrite decide_True by done. simpl. lia.
  - rewrite decide_False by done. lia.
Qed.

Lemma Counter_count data b :
  default 0 (dict_get (Counter data) b) = length (filter (λ x, x = b) data).
Proof. unfold Counter. by rewrite count_fold_get. Qed.

(** The frequency-weighted sum over the table of counts is the plain sum
    over the data. *)
Lemma count_step_weight (g : byte → nat) d b :
  sum_list (fmap (λ bf, bf.2 * g bf.1) (count_step d b))
  = sum_list (fmap (λ bf, bf.2 * g bf.1) d) + g b.
Proof.
  unfold count_step. induction d as [|[k f] d IH]; csimpl.
  - lia.
  - destruct (decide (b = k)) as [->|Hne]; csimpl.
    + lia.
    + rewrite IH. lia.
Qed.

Lemma count_fold_weight (g : byte → nat) data d :
  sum_list (fmap (λ bf, bf.2 * g bf.1) (foldl count_step d data))
  = sum_list (fmap (λ bf, bf.2 * g bf.1) d) + sum_list (fmap g data).
Proof.
  revert d. induction data as [|b data IH]; intros d; csimpl.
  - lia.
  - rewrite IH, count_step_weight. lia.
Qed.

Lemma weighted_cost_Counter codes data :
  weighted_cost (Counter data) codes = sum_list (fmap (code_len codes) data).
Proof.
  unfold weighted_cost, Counter. by rewrite count_fold_weight.
Qed.

(** The counts add up to the length of the input. *)
Lemma Counter_total data : sum_list (Counter data).*2 = length data.
Proof.
  pose proof (count_fold_weight (λ _, 1) data []) as Hw. simpl in Hw.
  rewrite sum_list_fmap_const in Hw. unfold Counter.
  transitivity (length data * 1); [|lia].
  rewrite <- Hw. f_equal. apply list_fmap_ext. intros i [b f] _. simpl. lia.
Qed.

(** ** The encoding step *)

Lemma encode_bits_total codes data :
  (∀ b, b ∈ data → is_Some (dict_get codes b)) →
  encode_bits codes data
  = Returned (concat (fmap (λ b, default [] (dict_get codes b)) data)).
Proof.
  induction data as [|b data IH]; intros Hall; csimpl; [done|].
  destruct (Hall b) as [w Hw]; [left|].
  rewrite Hw, IH; [done|]. intros x Hx. apply Hall. by right.
Qed.

Lemma encode_bits_missing codes data b :
  b ∈ data → dict_get codes b = None → is_failure (encode_bits codes data).
Proof.
  intros Hin Hb. induction data as [|x data IH].
  - by apply elem_of_nil in Hin.
  - csimpl. destruct (dict_get codes x) as [w|] eqn:Hx.
    + assert (b ∈ data) as Hin'.
      { apply elem_of_cons in Hin as [->|?]; [congruence|done]. }
      destruct (IH Hin') as [e He]. rewrite He. by exists e.
    + by eexists.
Qed.

Lemma encode_bits_Returned_inv codes data bits :
  encode_bits codes data = Returned bits →
  ∀ b, b ∈ data → is_Some (dict_get codes b).
Proof.
  intros Henc b Hin. destruct (dict_get codes b) eqn:Hb; [by eexists|].
  destruct (encode_bits_missing codes data b Hin Hb) as [e He]. congruence.
Qed.

Lemma length_concat_codes codes data :
  length (concat (fmap (λ b, default [] (dict_get codes b)) data))
  = sum_list (fmap (code_len codes) data).
Proof.
  induction data as [|b data IH]; csimpl; [done|].
  rewrite length_app, IH. done.
Qed.

(** ** The reverse map of the decoder *)

Lemma reverse_fold_Some codes m w b :
  dict_get (foldl rev_step m codes) w = Some b →
  (b, w) ∈ codes ∨ dict_get m w = Some b.
Proof.
  revert m. induction codes as [|[k v] codes IH]; intros m; simpl; [auto|].
  intros Hg. apply IH in Hg as [Hin|Hg]; [left; by right|].
  unfold rev_step in Hg. rewrite dict_get_set in Hg. simpl in Hg.
  case_decide; simplify_eq; [left; left | by right].
Qed.

Lemma reverse_fold_None codes m w :
  dict_get (foldl rev_step m codes) w = None ↔
  (w ∉ codes.*2) ∧ dict_get m w = None.
Proof.
  revert m. induction codes as [|[k v] codes IH]; intros m; simpl.
  - rewrite elem_of_nil. naive_solver.
  - rewrite IH. unfold rev_step. rewrite dict_get_set, not_elem_of_cons. simpl.
    case_decide; naive_solver.
Qed.

Lemma reverse_of_Some codes w b :
  dict_get (reverse_of codes) w = Some b → (b, w) ∈ codes.
Proof. intros Hg. apply reverse_fold_Some in Hg as [?|?]; done. Qed.

Lemma reverse_of_None codes w :
  dict_get (reverse_of codes) w = None ↔ w ∉ codes.*2.
Proof.
  unfold reverse_of. rewrite reverse_fold_None. naive_solver.
Qed.

Lemma reverse_of_unique codes w b :
  (b, w) ∈ codes → (∀ b', (b', w) ∈ codes → b' = b) →
  dict_get (reverse_of codes) w = Some b.
Proof.
  intros Hin Huniq. destruct (dict_get (reverse_of codes) w) as [b'|] eqn:Hg.
  - apply reverse_of_Some in Hg. by rewrite (Huniq b').
  - apply reverse_of_None in Hg. destruct Hg.
    by apply (list_elem_of_fmap_2 snd) in Hin.
Qed.

(** ** Prefix-free lists of code words *)

Lemma pfree_elem (codes : list (byte * list ascii)) b w b' w' :
  pfree codes.*2 → (b, w) ∈ codes → (b', w') ∈ codes → w `prefix_of` w' →
  (b, w) = (b', w').
Proof.
  induction codes as [|[k v] codes IH]; simpl.
  - intros _ Hin. by apply elem_of_nil in Hin.
  - intros [Hhd Htl] Hin Hin' Hpre.
    apply elem_of_cons in Hin as [Heq|Hin];
      apply elem_of_cons in Hin' as [Heq'|Hin']; simplify_eq.
    + done.
    + apply (list_elem_of_fmap_2 snd) in Hin'. by destruct (Hhd _ Hin').
    + apply (list_elem_of_fmap_2 snd) in Hin. by destruct (Hhd _ Hin).
    + by apply IH.
Qed.

Lemma pfree_Permutation ws ws' : ws ≡ₚ ws' → pfree ws → pfree ws'.
Proof.
  induction 1 as [|w ws ws' Hp IH|w1 w2 ws|ws1 ws2 ws3 _ IH1 _ IH2]; simpl.
  - done.
  - intros [Hhd Htl]. split; [|auto].
    intros v Hv. apply Hhd. by rewrite Hp.
  - intros [H1 [H2 Htl]]. split_and!; [|by intros v Hv; apply H1; right|done].
    intros v Hv. apply elem_of_cons in Hv as [->|Hv]; [|by apply H2].
    destruct (H1 w1) as [? ?]; [left|done].
  - auto.
Qed.

(** ** The decoding loop *)

Lemma decode_loop_acc rm bits cur acc :
  decode_loop rm bits cur acc
  = (acc ++ (decode_loop rm bits cur []).1, (decode_loop rm bits cur []).2).
Proof.
  revert cur acc. induction bits as [|bit bits IH]; intros cur acc; simpl.
  - by rewrite app_nil_r.
  - destruct (dict_get rm (cur ++ [bit])) as [b|].
    + rewrite (IH [] (acc ++ [b])), (IH [] [b]). simpl.
      by rewrite <- app_assoc.
    + apply IH.
Qed.

(** A proper prefix of [cur ++ [bit]] is a prefix of [cur]. *)
Lemma prefix_snoc_inv (p cur : list ascii) bit :
  p `prefix_of` cur ++ [bit] → p ≠ cur ++ [bit] → p `prefix_of` cur.
Proof.
  intros [k Hk] Hne. destruct (decide (k = [])) as [->|Hk'].
  - rewrite app_nil_r in Hk. congruence.
  - destruct (exists_last Hk') as (k' & c & ->).
    rewrite app_assoc in Hk. apply app_inj_tail in Hk as [-> _].
    by exists k'.
Qed.

(** The loop parses the stream greedily: what it has consumed is a
    sequence of first matches, and the buffer left matches nothing. *)
Lemma decode_loop_greedy codes bits cur :
  unmatched codes cur →
  ∃ ws, cur ++ bits
        = concat ws ++ (decode_loop (reverse_of codes) bits cur []).2
      ∧ Forall2 (first_match codes) ws
          (decode_loop (reverse_of codes) bits cur []).1
      ∧ unmatched codes (decode_loop (reverse_of codes) bits cur []).2.
Proof.
  revert cur. induction bits as [|bit bits IH]; intros cur Hcur; simpl.
  - exists []. simpl. rewrite app_nil_r. split_and!; [done|constructor|done].
  - destruct (dict_get (reverse_of codes) (cur ++ [bit])) as [b|] eqn:Hg.
    + rewrite decode_loop_acc. simpl.
      destruct (IH []) as (ws & Heq & Hall & Htail).
      { intros p Hp Hpre. apply prefix_nil_inv in Hpre. done. }
      exists ((cur ++ [bit]) :: ws). simpl in *. split_and!.
      * rewrite <- !app_assoc. simpl. by rewrite <- Heq.
      * constructor; [|done]. split_and!.
        -- done.
        -- by destruct cur.
        -- intros p Hp Hpre Hne. apply Hcur; [done|].
           by eapply prefix_snoc_inv.
      * done.
    + destruct (IH (cur ++ [bit])) as (ws & Heq & Hall & Htail).
      { intros p Hp Hpre.
        destruct (decide (p = cur ++ [bit])) as [->|Hne].
        - by apply reverse_of_None.
        - apply Hcur; [done|]. by eapply prefix_snoc_inv. }
      exists ws. split_and!; [|done|done].
      rewrite <- Heq. by rewrite <- app_assoc.
Qed.

(** Decoding a first match emits its symbol and empties the buffer. *)
Lemma decode_loop_first_match codes b w rest acc :
  first_match codes w b →
  decode_loop (reverse_of codes) (w ++ rest) [] acc
  = decode_loop (reverse_of codes) rest [] (acc ++ [b]).
Proof.
  intros (Hg & Hne & Hfirst).
  assert (∀ w2 w1, w1 ++ w2 = w → w2 ≠ [] →
    decode_loop (reverse_of codes) (w2 ++ rest) w1 acc
    = decode_loop (reverse_of codes) rest [] (acc ++ [b])) as Hgen.
  { induction w2 as [|c w2 IH]; intros w1 Hw Hw2; [done|]. simpl.
    destruct (decide (w2 = [])) as [->|Hw2'].
    - by rewrite Hw, Hg.
    - assert (dict_get (reverse_of codes) (w1 ++ [c]) = None) as ->.
      { apply reverse_of_None. apply Hfirst.
        - by destruct w1.
        - exists w2. rewrite <- Hw. by rewrite <- app_assoc.
        - intros Heq. rewrite <- Hw in Heq.
          apply (f_equal length) in Heq. rewrite !length_app in Heq.
          simpl in Heq. destruct w2; [done|]. simpl in Heq. lia. }
      apply IH; [|done]. rewrite <- Hw. by rewrite <- app_assoc. }
  by apply (Hgen w []).
Qed.

Lemma decode_loop_first_matches codes ws out rest acc :
  Forall2 (first_match codes) ws out →
  decode_loop (reverse_of codes) (concat ws ++ rest) [] acc
  = decode_loop (reverse_of codes) rest [] (acc ++ out).
Proof.
  intros Hall. revert acc.
  induction Hall as [|w b ws out Hw _ IH]; intros acc; simpl.
  - by rewrite app_nil_r.
  - rewrite <- app_assoc, (decode_loop_first_match codes b w) by done.
    rewrite IH. by rewrite <- app_assoc.
Qed.

(** In a prefix-free table every non-empty code word is a first match. *)
Lemma pfree_first_match codes b w :
  pfree codes.*2 → (b, w) ∈ codes → w ≠ [] → first_match codes w b.
Proof.
  intros Hpf Hin Hne. split_and!; [|done|].
  - apply reverse_of_unique; [done|].
    intros b' Hb'. by injection (pfree_elem codes b' w b w Hpf Hb' Hin).
  - intros p Hp Hpre Hpw Hpin.
    apply list_elem_of_fmap in Hpin as ([b' p'] & -> & Hb').
    pose proof (pfree_elem codes _ _ _ _ Hpf Hb' Hin Hpre). by simplify_eq.
Qed.

(** Decoding one code word of a prefix-free table emits its symbol. *)
Lemma decode_loop_codeword codes b w rest acc :
  pfree codes.*2 → (b, w) ∈ codes → w ≠ [] →
  decode_loop (reverse_of codes) (w ++ rest) [] acc
  = decode_loop (reverse_of codes) rest [] (acc ++ [b]).
Proof.
  intros Hpf Hin Hne. by apply decode_loop_first_match, pfree_first_match.
Qed.

(** The round trip of a table whose code words are prefix-free and not
    empty. *)
Lemma decode_loop_roundtrip codes data acc :
  pfree codes.*2 →
  (∀ b, b ∈ data → ∃ w, dict_get codes b = Some w ∧ w ≠ []) →
  decode_loop (reverse_of codes)
    (concat (fmap (λ b, default [] (dict_get codes b)) data)) [] acc
  = (acc ++ data, []).
Proof.
  intros Hpf. revert acc. induction data as [|b data IH]; intros acc Hall; csimpl.
  - by rewrite app_nil_r.
  - destruct (Hall b) as (w & Hw & Hne); [left|]. rewrite Hw. csimpl.
    rewrite (decode_loop_codeword codes b w); [|done|by apply dict_get_Some_elem|done].
    rewrite IH; [by rewrite <- app_assoc|].
    intros x Hx. apply Hall. by right.
Qed.

(** ** [heapq]: the operations permute the heap *)

Section heapq_perm.
Context {A : Type} (lt : A → A → bool).
Implicit Types (h heap : list A) (x : A).

Lemma parent_lt pos : 0 < pos → (pos - 1) / 2 < pos.
Proof. lia. Qed.

Lemma siftdown_loop_perm fuel heap s pos x :
  pos < length heap →
  heapq.siftdown_loop lt fuel heap s pos x ≡ₚ <[pos := x]> heap.
Proof.
  revert heap pos. induction fuel as [|fuel IH]; intros heap pos Hpos;
    cbn [heapq.siftdown_loop]; [done|].
  destruct (s <? pos) eqn:Hs; [|done].
  apply Nat.ltb_lt in Hs.
  destruct (heap !! ((pos - 1) / 2)) as [parent|] eqn:Hp; [|done].
  destruct (lt x parent); [|done].
  rewrite IH by (rewrite length_insert; lia).
  assert ((pos - 1) / 2 ≠ pos) as Hne by lia.
  rewrite <- (list_insert_insert_eq heap pos parent x).
  apply Permutation_insert_swap.
  - by apply list_lookup_insert_eq.
  - by rewrite list_lookup_insert_ne.
Qed.

Lemma siftdown_perm heap s pos : heapq.siftdown lt heap s pos ≡ₚ heap.
Proof.
  unfold heapq.siftdown. destruct (heap !! pos) as [x|] eqn:Hx; [|done].
  rewrite siftdown_loop_perm by (by eapply lookup_lt_Some).
  by rewrite list_insert_id.
Qed.

(** The loop of [_siftup] moves the hole from [pos] to the position it
    returns, which is in range. *)
Lemma siftup_loop_perm fuel heap pos x h' pos' :
  pos < length heap →
  heapq.siftup_loop lt fuel heap pos = (h', pos') →
  pos' < length h' ∧ length h' = length heap ∧
  <[pos' := x]> h' ≡ₚ <[pos := x]> heap.
Proof.
  revert heap pos. induction fuel as [|fuel IH]; intros heap pos Hpos;
    cbn [heapq.siftup_loop]; [by intros [= <- <-]|].
  destruct (2 * pos + 1 <? length heap) eqn:Hc; [|by intros [= <- <-]].
  apply Nat.ltb_lt in Hc.
  set (cp := match heap !! (2 * pos + 1), heap !! (2 * pos + 1 + 1) with
             | Some c, Some r => if negb (lt c r) then 2 * pos + 1 + 1 else 2 * pos + 1
             | _, _ => 2 * pos + 1
             end).
  destruct (heap !! cp) as [c|] eqn:Hcp; [|by intros [= <- <-]].
  assert (cp < length heap) as Hcplen by (by eapply lookup_lt_Some).
  assert (pos < cp) as Hlt.
  { unfold cp. destruct (heap !! (2 * pos + 1)), (heap !! (2 * pos + 1 + 1));
      try destruct (negb _); lia. }
  intros Hrec. apply (IH _ _) in Hrec as (Hp' & Hlen & Hperm);
    [|rewrite length_insert; lia].
  rewrite length_insert in Hlen. split_and!; [done|done|].
  rewrite Hperm.
  rewrite <- (list_insert_insert_eq heap pos c x).
  apply Permutation_insert_swap.
  - by apply list_lookup_insert_eq.
  - rewrite list_lookup_insert_ne by lia. done.
Qed.

(** The fuel of the loops is enough: more of it changes nothing. *)
Lemma siftdown_loop_fuel fuel1 fuel2 heap s pos x :
  pos ≤ fuel1 → pos ≤ fuel2 →
  heapq.siftdown_loop lt fuel1 heap s pos x
  = heapq.siftdown_loop lt fuel2 heap s pos x.
Proof.
  revert fuel2 heap pos. induction fuel1 as [|fuel1 IH];
    intros [|fuel2] heap pos H1 H2; cbn [heapq.siftdown_loop]; try done.
  - assert ((s <? pos) = false) as -> by (apply Nat.ltb_ge; lia). done.
  - assert ((s <? pos) = false) as -> by (apply Nat.ltb_ge; lia). done.
  - destruct (s <? pos) eqn:Hs; [|done]. apply Nat.ltb_lt in Hs.
    destruct (heap !! ((pos - 1) / 2)); [|done].
    destruct (lt x a); [|done]. apply IH; lia.
Qed.

Lemma siftup_loop_fuel fuel1 fuel2 heap pos :
  length heap ≤ fuel1 + pos → length heap ≤ fuel2 + pos →
  heapq.siftup_loop lt fuel1 heap pos = heapq.siftup_loop lt fuel2 heap pos.
Proof.
  revert fuel2 heap pos. induction fuel1 as [|fuel1 IH];
    intros [|fuel2] heap pos H1 H2; cbn [heapq.siftup_loop]; try done.
  - assert ((2 * pos + 1 <? length heap) = false) as -> by (apply Nat.ltb_ge; lia).
    done.
  - assert ((2 * pos + 1 <? length heap) = false) as -> by (apply Nat.ltb_ge; lia).
    done.
  - destruct (2 * pos + 1 <? length heap) eqn:Hc; [|done].
    set (cp := match heap !! (2 * pos + 1), heap !! (2 * pos + 1 + 1) with
               | Some c, Some r => if negb (lt c r) then 2 * pos + 1 + 1 else 2 * pos + 1
               | _, _ => 2 * pos + 1
               end).
    assert (pos < cp) as Hlt.
    { unfold cp. destruct (heap !! (2 * pos + 1)), (heap !! (2 * pos + 1 + 1));
        try destruct (negb _); lia. }
    destruct (heap !! cp); [|done].
    apply IH; rewrite length_insert; lia.
Qed.

Lemma siftup_perm heap pos : heapq.siftup lt heap pos ≡ₚ heap.
Proof.
  unfold heapq.siftup. destruct (heap !! pos) as [x|] eqn:Hx; [|done].
  destruct (heapq.siftup_loop lt (length heap) heap pos) as [h' pos'] eqn:Hl.
  apply (siftup_loop_perm _ _ _ x) in Hl as (_ & _ & Hperm);
    [|by eapply lookup_lt_Some].
  rewrite siftdown_perm, Hperm. by rewrite list_insert_id.
Qed.

Lemma heappush_perm heap x : heapq.heappush lt heap x ≡ₚ x :: heap.
Proof.
  unfold heapq.heappush. rewrite siftdown_perm.
  by rewrite Permutation_app_comm.
Qed.

Lemma last_removelast heap x :
  last heap = Some x → heap = removelast heap ++ [x].
Proof.
  intros Hl. destruct (decide (heap = [])) as [->|Hne]; [done|].
  destruct (exists_last Hne) as (h0 & y & ->).
  rewrite last_snoc in Hl. simplify_eq. by rewrite removelast_last.
Qed.

Lemma heappop_perm heap x h' :
  heapq.heappop lt heap = Some (x, h') → heap ≡ₚ x :: h'.
Proof.
  unfold heapq.heappop. destruct (last heap) as [lastelt|] eqn:Hl; [|done].
  apply last_removelast in Hl.
  destruct (removelast heap) as [|returnitem rest] eqn:Hr.
  - intros [= <- <-]. by rewrite Hl.
  - intros [= <- <-]. rewrite siftup_perm, Hl. simpl.
    f_equiv. symmetry. apply Permutation_cons_append.
Qed.

Lemma heappop_is_Some heap :
  heap ≠ [] → ∃ x h', heapq.heappop lt heap = Some (x, h').
Proof.
  intros Hne. destruct (exists_last Hne) as (h0 & y & ->).
  unfold heapq.heappop. rewrite last_snoc, removelast_last.
  destruct h0; eauto.
Qed.

Lemma heapify_perm heap : heapq.heapify lt heap ≡ₚ heap.
Proof.
  unfold heapq.heapify. generalize (rev (seq 0 (length heap / 2))).
  intros l. revert heap. induction l as [|i l IH]; intros heap; simpl; [done|].
  by rewrite IH, siftup_perm.
Qed.

End heapq_perm.

(** ** [heapq]: the operations keep the heap invariant *)

Lemma below_le s p : below s p → s ≤ p.
Proof. induction 1; lia. Qed.

Lemma below_parent s p : below s p → s < p → below s ((p - 1) / 2).
Proof.
  intros Hb Hlt. destruct Hb as [|p c Hb Hc Hp]; [lia|]. by subst.
Qed.

Lemma below_zero p : below 0 p.
Proof.
  induction (lt_wf p) as [p _ IH]. destruct (decide (p = 0)) as [->|Hne].
  - constructor.
  - apply (below_child 0 ((p - 1) / 2)); [apply IH|..]; lia.
Qed.

Section heapq_inv.
Context {A : Type} (lt : A → A → bool) (key : A → nat).
Hypothesis lt_key : ∀ a b, lt a b = (key a <? key b).
Implicit Types (h heap : list A) (x : A).

Lemma key_at_insert h i j x :
  i < length h →
  key_at key (<[i := x]> h) j = if decide (j = i) then key x else key_at key h j.
Proof.
  intros Hi. unfold key_at. case_decide as Hj.
  - subst. by rewrite list_lookup_insert_eq.
  - by rewrite list_lookup_insert_ne.
Qed.

Lemma key_at_Some h i x : h !! i = Some x → key_at key h i = key x.
Proof. intros Hx. unfold key_at. by rewrite Hx. Qed.

Lemma siftdown_loop_heap fuel h s pos x :
  pos ≤ fuel → pos < length h → below s pos →
  (∀ j, 0 < j → j < length h → s ≤ (j - 1) / 2 → j ≠ pos →
     key_at key (<[pos := x]> h) ((j - 1) / 2) ≤ key_at key (<[pos := x]> h) j) →
  (s < pos → ∀ j, 0 < j → j < length h → (j - 1) / 2 = pos →
     key_at key (<[pos := x]> h) ((pos - 1) / 2) ≤ key_at key (<[pos := x]> h) j) →
  heap_above key s (heapq.siftdown_loop lt fuel h s pos x).
Proof.
  revert h pos. induction fuel as [|fuel IH]; intros h pos Hfuel Hlen Hbel J1 J2;
    cbn [heapq.siftdown_loop].
  { intros j Hj0 Hjl Hjs. rewrite length_insert in Hjl. apply J1; lia. }
  pose proof (below_le _ _ Hbel) as Hsp.
  destruct (s <? pos) eqn:Hs.
  2:{ apply Nat.ltb_ge in Hs. intros j Hj0 Hjl Hjs. rewrite length_insert in Hjl.
      apply J1; lia. }
  apply Nat.ltb_lt in Hs. specialize (J2 Hs).
  set (pp := (pos - 1) / 2) in *.
  assert (pp < pos) as Hpp by (unfold pp; lia).
  destruct (h !! pp) as [parent|] eqn:Hp.
  2:{ apply lookup_ge_None in Hp. lia. }
  pose proof (key_at_Some _ _ _ Hp) as Hkp.
  rewrite lt_key. destruct (key x <? key parent) eqn:Hcmp.
  - apply Nat.ltb_lt in Hcmp.
    apply IH; [lia|rewrite length_insert; lia|by apply below_parent|..].
    + intros j Hj0 Hjl Hjs Hjne. rewrite length_insert in Hjl.
      rewrite !key_at_insert by (rewrite ?length_insert; lia).
      destruct (decide (j = pos)) as [->|Hjpos].
      * fold pp. rewrite decide_True by done. rewrite decide_False by done. lia.
      * rewrite (decide_False (P := j = pp)) by done.
        destruct (decide ((j - 1) / 2 = pp)) as [Hjp|Hjp].
        -- specialize (J1 j Hj0 Hjl Hjs Hjpos).
           rewrite !key_at_insert in J1 by lia.
           rewrite decide_False in J1 by lia.
           rewrite (decide_False (P := j = pos)) in J1 by done.
           rewrite Hjp in J1. lia.
        -- destruct (decide ((j - 1) / 2 = pos)) as [Hjq|Hjq].
           ++ specialize (J2 j Hj0 Hjl Hjq).
              rewrite !key_at_insert in J2 by lia. fold pp in J2.
              rewrite decide_False in J2 by lia.
              rewrite (decide_False (P := j = pos)) in J2 by done. lia.
           ++ specialize (J1 j Hj0 Hjl Hjs Hjpos).
              rewrite !key_at_insert in J1 by lia.
              rewrite decide_False in J1 by lia.
              rewrite (decide_False (P := j = pos)) in J1 by done. done.
    + intros Hspp j Hj0 Hjl Hjp. rewrite length_insert in Hjl.
      assert (below s ((pp - 1) / 2)) as Hb2.
      { apply below_parent; [by apply below_parent|done]. }
      apply below_le in Hb2.
      pose proof (J1 pp ltac:(lia) ltac:(lia) Hb2 ltac:(lia)) as Hgp.
      rewrite !key_at_insert in Hgp by lia.
      rewrite !decide_False in Hgp by lia.
      rewrite !key_at_insert by (rewrite ?length_insert; lia).
      rewrite (decide_False (P := (pp - 1) / 2 = pp)) by lia.
      rewrite (decide_False (P := (pp - 1) / 2 = pos)) by lia.
      rewrite (decide_False (P := j = pp)) by lia.
      destruct (decide (j = pos)) as [->|Hjpos]; [lia|].
      pose proof (J1 j Hj0 Hjl ltac:(lia) Hjpos) as Hsib.
      rewrite !key_at_insert in Hsib by lia.
      rewrite Hjp in Hsib.
      rewrite decide_False in Hsib by lia.
      rewrite (decide_False (P := j = pos)) in Hsib by done. lia.
  - apply Nat.ltb_ge in Hcmp.
    intros j Hj0 Hjl Hjs. rewrite length_insert in Hjl.
    destruct (decide (j = pos)) as [->|Hjpos]; [|by apply J1].
    fold pp. rewrite !key_at_insert by lia.
    rewrite decide_False by lia. rewrite decide_True by done. lia.
Qed.

Lemma siftup_loop_heap fuel h s pos h' pos' :
  length h ≤ fuel + pos → pos < length h → below s pos →
  (∀ j, 0 < j → j < length h → s ≤ (j - 1) / 2 → ((j - 1) / 2 = pos → s < pos) →
     key_at key h ((j - 1) / 2) ≤ key_at key h j) →
  heapq.siftup_loop lt fuel h pos = (h', pos') →
  below s pos' ∧ length h' ≤ 2 * pos' + 1 ∧
  (∀ j, 0 < j → j < length h' → s ≤ (j - 1) / 2 → ((j - 1) / 2 = pos' → s < pos') →
     key_at key h' ((j - 1) / 2) ≤ key_at key h' j).
Proof.
  revert h pos. induction fuel as [|fuel IH]; intros h pos Hfuel Hlen Hbel K1;
    cbn [heapq.siftup_loop]; [lia|].
  pose proof (below_le _ _ Hbel) as Hsp.
  destruct (2 * pos + 1 <? length h) eqn:Hc.
  2:{ apply Nat.ltb_ge in Hc. intros [= <- <-]. split_and!; [done|lia|done]. }
  apply Nat.ltb_lt in Hc.
  set (cp := match h !! (2 * pos + 1), h !! (2 * pos + 1 + 1) with
             | Some c, Some r => if negb (lt c r) then 2 * pos + 1 + 1 else 2 * pos + 1
             | _, _ => 2 * pos + 1
             end).
  assert (cp < length h ∧ (cp - 1) / 2 = pos ∧ 0 < cp ∧
          ∀ j, 0 < j → j < length h → (j - 1) / 2 = pos →
               key_at key h cp ≤ key_at key h j) as (Hcpl & Hcpp & Hcp0 & Hmin).
  { unfold cp. destruct (h !! (2 * pos + 1)) as [c|] eqn:HL.
    2:{ apply lookup_ge_None in HL. lia. }
    destruct (h !! (2 * pos + 1 + 1)) as [r|] eqn:HR.
    - apply key_at_Some in HL as HLk. apply key_at_Some in HR as HRk.
      apply lookup_lt_Some in HR.
      rewrite lt_key. destruct (key c <? key r) eqn:Hcmp; cbn [negb].
      + apply Nat.ltb_lt in Hcmp. split_and!; [lia..|].
        intros j Hj0 Hjl Hjp.
        assert (j = 2 * pos + 1 ∨ j = 2 * pos + 1 + 1) as [->| ->] by lia; lia.
      + apply Nat.ltb_ge in Hcmp. split_and!; [lia..|].
        intros j Hj0 Hjl Hjp.
        assert (j = 2 * pos + 1 ∨ j = 2 * pos + 1 + 1) as [->| ->] by lia; lia.
    - apply lookup_ge_None in HR. split_and!; [lia..|].
      intros j Hj0 Hjl Hjp. assert (j = 2 * pos + 1) as -> by lia. done. }
  clearbody cp.
  destruct (h !! cp) as [c|] eqn:Hcv.
  2:{ apply lookup_ge_None in Hcv. lia. }
  apply key_at_Some in Hcv as Hck.
  apply IH.
  - rewrite length_insert. lia.
  - rewrite length_insert. lia.
  - by apply (below_child s pos).
  - intros j Hj0 Hjl Hjs _. rewrite length_insert in Hjl.
    rewrite !key_at_insert by lia.
    destruct (decide (j = pos)) as [->|Hjpos].
    + rewrite decide_False by lia.
      pose proof (K1 pos Hj0 Hlen Hjs ltac:(lia)) as H1.
      pose proof (K1 cp Hcp0 Hcpl ltac:(lia) ltac:(lia)) as H2.
      rewrite Hcpp in H2. lia.
    + destruct (decide ((j - 1) / 2 = pos)) as [Hjp|Hjp].
      * rewrite <- Hck. by apply Hmin.
      * apply K1; [done..|lia].
Qed.

Lemma siftup_length h pos : length (heapq.siftup lt h pos) = length h.
Proof. apply Permutation_length, siftup_perm. Qed.

(** One [_siftup] at [s] extends the heap invariant from the indices above
    [s] to [s]. *)
Lemma siftup_heap h s :
  s < length h → heap_above key (S s) h →
  heap_above key s (heapq.siftup lt h s).
Proof.
  intros Hs Hh. unfold heapq.siftup.
  destruct (h !! s) as [x|] eqn:Hx.
  2:{ apply lookup_ge_None in Hx. lia. }
  destruct (heapq.siftup_loop lt (length h) h s) as [h' pos'] eqn:Hl.
  pose proof (siftup_loop_perm lt _ _ _ x _ _ Hs Hl) as (Hp' & Hlen' & _).
  apply siftup_loop_heap with (s := s) in Hl as (Hbel & Hleaf & K1);
    [|lia|done|constructor|].
  2:{ intros j Hj0 Hjl Hjs Hjp. apply Hh; [done..|].
      destruct (decide ((j - 1) / 2 = s)) as [Heq|Hne]; [apply Hjp in Heq|]; lia. }
  unfold heapq.siftdown. rewrite list_lookup_insert_eq by done.
  apply siftdown_loop_heap.
  - done.
  - by rewrite length_insert.
  - done.
  - intros j Hj0 Hjl Hjs Hjne. rewrite length_insert in Hjl.
    rewrite list_insert_insert_eq. rewrite !key_at_insert by done.
    rewrite decide_False by lia. rewrite decide_False by done.
    apply K1; [done..|lia].
  - intros _ j Hj0 Hjl Hjp. rewrite length_insert in Hjl. lia.
Qed.

Lemma heapify_heap h : heap_above key 0 (heapq.heapify lt h).
Proof.
  unfold heapq.heapify.
  assert (∀ k h, k ≤ length h → heap_above key k h →
            heap_above key 0 (foldl (heapq.siftup lt) h (rev (seq 0 k)))) as Hgen.
  { clear h. induction k as [|k IH]; intros h Hk Hh; [done|].
    rewrite seq_S, rev_app_distr. simpl.
    apply IH; [rewrite siftup_length; lia|].
    apply siftup_heap; [lia|done]. }
  apply Hgen; [lia|].
  intros j Hj0 Hjl Hjs. lia.
Qed.

Lemma heappush_heap h x :
  heap_above key 0 h → heap_above key 0 (heapq.heappush lt h x).
Proof.
  intros Hh. unfold heapq.heappush, heapq.siftdown.
  rewrite list_lookup_middle by done.
  assert (<[length h := x]> (h ++ [x]) = h ++ [x]) as Hid.
  { apply list_insert_id. by apply list_lookup_middle. }
  apply siftdown_loop_heap.
  - done.
  - rewrite length_app. simpl. lia.
  - apply below_zero.
  - intros j Hj0 Hjl _ Hjne. rewrite length_app in Hjl. simpl in Hjl.
    rewrite Hid. unfold key_at. rewrite !lookup_app_l by lia.
    apply Hh; lia.
  - intros _ j Hj0 Hjl Hjp. rewrite length_app in Hjl. simpl in Hjl. lia.
Qed.

Lemma heap_root_min h i :
  heap_above key 0 h → i < length h → key_at key h 0 ≤ key_at key h i.
Proof.
  intros Hh. induction (lt_wf i) as [i _ IH]. intros Hi.
  destruct (decide (i = 0)) as [->|Hne]; [done|].
  etrans; [apply (IH ((i - 1) / 2)); lia|].
  apply Hh; lia.
Qed.

(** [heappop] returns a least item and leaves a heap. *)
Lemma heappop_heap h x h' :
  heap_above key 0 h → heapq.heappop lt h = Some (x, h') →
  heap_above key 0 h' ∧ ∀ y, y ∈ h' → key x ≤ key y.
Proof.
  intros Hh Hpop.
  assert (∀ y, y ∈ h' → key x ≤ key y) as Hmin.
  { pose proof (heappop_perm lt _ _ _ Hpop) as Hperm.
    assert (h !! 0 = Some x) as Hx.
    { revert Hpop. unfold heapq.heappop.
      destruct (last h) as [lastelt|] eqn:Hl; [|done].
      apply last_removelast in Hl.
      destruct (removelast h) as [|returnitem rest] eqn:Hr;
        intros [= <- <-]; by rewrite Hl. }
    intros y Hy. assert (y ∈ h) as Hyh by (rewrite Hperm; by right).
    apply list_elem_of_lookup in Hyh as [i Hi].
    rewrite <- (key_at_Some _ _ _ Hx), <- (key_at_Some _ _ _ Hi).
    apply heap_root_min; [done|]. by eapply lookup_lt_Some. }
  split; [|done]. revert Hpop. unfold heapq.heappop.
  destruct (last h) as [lastelt|] eqn:Hl; [|done].
  apply last_removelast in Hl.
  destruct (removelast h) as [|returnitem rest] eqn:Hr; intros [= <- <-].
  - intros j Hj0 Hjl. simpl in Hjl. lia.
  - apply siftup_heap; [simpl; lia|].
    intros j Hj0 Hjl Hjs. simpl in Hjl.
    assert (∀ i, 0 < i → i < S (length rest) →
              key_at key (lastelt :: rest) i = key_at key h i) as Hsame.
    { intros i Hi0 Hil. rewrite Hl. unfold key_at.
      destruct i as [|i]; [lia|]. simpl. rewrite lookup_app_l by lia. done. }
    rewrite !Hsame by lia. apply Hh; [done| |lia].
    rewrite Hl. rewrite length_app. simpl. lia.
Qed.

End heapq_inv.

(** ** The merge loop runs Huffman's algorithm *)

Lemma node_lt_freq a b : node_lt a b = (freq a <? freq b).
Proof. done. Qed.

Lemma merge_loop_huffman fuel heap :
  heap_above freq 0 heap → heap ≠ [] → length heap ≤ fuel →
  ∃ t, merge_loop fuel heap = [t] ∧ huffman_merge heap t.
Proof.
  revert heap. induction fuel as [|fuel IH]; intros heap Hh Hne Hfuel.
  { destruct heap; [done|simpl in Hfuel; lia]. }
  cbn [merge_loop]. destruct (1 <? length heap) eqn:Hlen.
  2:{ apply Nat.ltb_ge in Hlen. destruct heap as [|t [|??]]; [done| |simpl in Hlen; lia].
      exists t. split; [done|constructor]. }
  apply Nat.ltb_lt in Hlen.
  destruct (heappop_is_Some node_lt heap Hne) as (a & h1 & Hpop1). rewrite Hpop1.
  pose proof (heappop_perm _ _ _ _ Hpop1) as Hperm1.
  destruct (heappop_heap _ _ node_lt_freq _ _ _ Hh Hpop1) as [Hh1 Hmin1].
  assert (length heap = S (length h1)) as Hl1 by (by rewrite Hperm1).
  assert (h1 ≠ []) as Hne1 by (intros ->; simpl in Hl1; lia).
  destruct (heappop_is_Some node_lt h1 Hne1) as (b & h2 & Hpop2). rewrite Hpop2.
  pose proof (heappop_perm _ _ _ _ Hpop2) as Hperm2.
  destruct (heappop_heap _ _ node_lt_freq _ _ _ Hh1 Hpop2) as [Hh2 Hmin2].
  assert (length h1 = S (length h2)) as Hl2 by (by rewrite Hperm2).
  set (merged := Internal (freq a + freq b) a b).
  pose proof (heappush_perm node_lt h2 merged) as Hperm3.
  destruct (IH (heapq.heappush node_lt h2 merged)) as (t & Ht & Hm).
  - by apply heappush_heap.
  - intros Hnil. rewrite Hnil in Hperm3. by apply Permutation_nil_cons in Hperm3.
  - rewrite Hperm3. simpl. lia.
  - exists t. split; [done|].
    apply (huffman_step heap (heapq.heappush node_lt h2 merged) a b h2 t);
      [|..|exact Hperm3|exact Hm].
    + by rewrite Hperm1, Hperm2.
    + apply Hmin1. rewrite Hperm2. left.
    + done.
Qed.

Lemma merge_loop_fuel fuel1 fuel2 heap :
  length heap ≤ fuel1 → length heap ≤ fuel2 →
  merge_loop fuel1 heap = merge_loop fuel2 heap.
Proof.
  revert fuel2 heap. induction fuel1 as [|fuel1 IH];
    intros [|fuel2] heap H1 H2; cbn [merge_loop]; try done.
  - assert ((1 <? length heap) = false) as -> by (apply Nat.ltb_ge; lia). done.
  - assert ((1 <? length heap) = false) as -> by (apply Nat.ltb_ge; lia). done.
  - destruct (1 <? length heap) eqn:Hl; [|done].
    destruct (heapq.heappop node_lt heap) as [[a h1]|] eqn:Hpop1; [|done].
    destruct (heapq.heappop node_lt h1) as [[b h2]|] eqn:Hpop2; [|done].
    apply heappop_perm, Permutation_length in Hpop1.
    apply heappop_perm, Permutation_length in Hpop2.
    pose proof (Permutation_length
      (heappush_perm node_lt h2 (Internal (freq a + freq b) a b))) as Hpush.
    simpl in *. apply IH; lia.
Qed.

Lemma huffman_merge_perm F F' t :
  F ≡ₚ F' → huffman_merge F t → huffman_merge F' t.
Proof.
  intros Hperm Hm. destruct Hm as [t|F G a b F0 t H1 H2 H3 H4 H5].
  - apply Permutation_singleton_l in Hperm as <-. constructor.
  - eapply huffman_step; [|done|done|exact H4|exact H5]. by rewrite <- Hperm.
Qed.

Lemma build_tree_nil : build_huffman_tree_from_bytes [] = None.
Proof. done. Qed.

(** On a non-empty input the builder returns a tree, and that tree is a
    result of Huffman's algorithm on the leaves of the frequency table. *)
Lemma build_tree_huffman data :
  data ≠ [] →
  ∃ t, build_huffman_tree_from_bytes data = Some t ∧
       huffman_merge (fmap (λ bf, Leaf bf.1 bf.2) (Counter data)) t.
Proof.
  intros Hne. unfold build_huffman_tree_from_bytes.
  set (F := fmap (λ bf, Leaf bf.1 bf.2) (Counter data)).
  pose proof (heapify_perm node_lt F) as Hperm.
  pose proof (heapify_heap _ _ node_lt_freq F) as Hheap.
  assert (F ≠ []) as HF.
  { unfold F. intros Hnil. apply fmap_nil_inv in Hnil.
    by apply Counter_nil_inv in Hnil. }
  assert (heapq.heapify node_lt F ≠ []) as Hne'.
  { intros Hnil. rewrite Hnil in Hperm. by apply Permutation_nil in Hperm. }
  destruct (merge_loop_huffman (length (heapq.heapify node_lt F)) _ Hheap Hne')
    as (t & Ht & Hm); [done|].
  exists t. rewrite Ht. split.
  - by destruct (heapq.heapify node_lt F).
  - by apply (huffman_merge_perm _ _ _ Hperm).
Qed.

(** ** Trees built by Huffman's algorithm *)

Lemma forest_leaves_perm F G : F ≡ₚ G → forest_leaves F ≡ₚ forest_leaves G.
Proof. intros Hp. unfold forest_leaves. by rewrite Hp. Qed.

Lemma huffman_merge_leaves F t : huffman_merge F t → leaves t ≡ₚ forest_leaves F.
Proof.
  induction 1 as [t|F G a b F' t H1 H2 H3 H4 H5 IH].
  - unfold forest_leaves. csimpl. by rewrite app_nil_r.
  - rewrite IH, (forest_leaves_perm _ _ H4), (forest_leaves_perm _ _ H1).
    unfold forest_leaves. csimpl. by rewrite <- app_assoc.
Qed.

Lemma huffman_merge_freq_ok F t :
  huffman_merge F t → Forall freq_ok F → freq_ok t.
Proof.
  induction 1 as [t|F G a b F' t H1 H2 H3 H4 H5 IH]; intros Hok.
  - by inversion Hok.
  - apply IH. rewrite H4. rewrite H1 in Hok.
    apply Forall_cons in Hok as [Ha Hok]. apply Forall_cons in Hok as [Hb Hok].
    apply Forall_cons. split; [|done]. simpl. done.
Qed.

Lemma freq_ok_wsum t : freq_ok t → freq t = wsum t.
Proof.
  induction t as [b f|f l IHl r IHr]; simpl; [done|].
  intros (-> & Hl & Hr). by rewrite IHl, IHr.
Qed.

Lemma leaf_forest_leaves (freqs : list (byte * nat)) :
  forest_leaves (fmap (λ bf, Leaf bf.1 bf.2) freqs) = freqs.
Proof.
  unfold forest_leaves. induction freqs as [|[b f] freqs IH]; csimpl; [done|].
  by rewrite IH.
Qed.

Lemma leaf_forest_freq_ok (freqs : list (byte * nat)) :
  Forall freq_ok (fmap (λ bf, Leaf bf.1 bf.2) freqs).
Proof. apply Forall_fmap, Forall_true. done. Qed.

Lemma paths_keys t : (paths t).*1 = (leaves t).*1.
Proof.
  induction t as [b f|f l IHl r IHr]; csimpl; [done|].
  rewrite !fmap_app, <- IHl, <- IHr, <- !list_fmap_compose. done.
Qed.

Lemma code_table_keys t : (code_table t).*1 = (leaves t).*1.
Proof.
  unfold code_table. by rewrite <- paths_keys, <- list_fmap_compose.
Qed.

(** [walk] appends the table of the tree when its symbols are new and
    pairwise different. *)
Lemma walk_paths t p codes :
  NoDup (codes.*1 ++ (leaves t).*1) →
  walk t p codes = codes ++ fmap (λ bw, (bw.1, or_zero (p ++ bw.2))) (paths t).
Proof.
  revert p codes. induction t as [b f|f l IHl r IHr]; intros p codes Hnd; csimpl in *.
  - rewrite app_nil_r. apply dict_set_fresh.
    apply NoDup_app in Hnd as (_ & Hd & _). intros Hin. apply (Hd b Hin). left.
  - rewrite fmap_app, app_assoc in Hnd.
    rewrite IHl by (by apply NoDup_app in Hnd as (? & _ & _)).
    rewrite IHr.
    + rewrite <- app_assoc. f_equal. rewrite fmap_app, <- !list_fmap_compose.
      f_equal; apply list_fmap_ext; intros i [b w] _; csimpl; by rewrite <- app_assoc.
    + rewrite fmap_app, <- list_fmap_compose.
      rewrite <- paths_keys in Hnd. done.
Qed.

Lemma build_codes_code_table t :
  NoDup (leaves t).*1 → build_codes_from_tree (Some t) = code_table t.
Proof. intros Hnd. unfold build_codes_from_tree. by rewrite walk_paths. Qed.

(** ** The table of a tree is prefix-free *)

Lemma pfree_app ws1 ws2 :
  pfree (ws1 ++ ws2) ↔
  pfree ws1 ∧ pfree ws2 ∧
  ∀ v1 v2, v1 ∈ ws1 → v2 ∈ ws2 → ¬ v1 `prefix_of` v2 ∧ ¬ v2 `prefix_of` v1.
Proof.
  induction ws1 as [|w ws1 IH]; simpl.
  - split; [intros ?; split_and!; [done..|]|naive_solver].
    intros v1 v2 Hv1. by apply elem_of_nil in Hv1.
  - rewrite IH. split.
    + intros (Hhd & H1 & H2 & H12). split_and!; [|done..|].
      * intros v Hv. apply Hhd. apply elem_of_app. by left.
      * intros v1 v2 Hv1 Hv2. apply elem_of_cons in Hv1 as [->|Hv1]; [|by apply H12].
        apply Hhd. apply elem_of_app. by right.
    + intros ((Hhd & H1) & H2 & H12). split_and!; [|done..|].
      * intros v Hv. apply elem_of_app in Hv as [Hv|Hv]; [by apply Hhd|].
        apply H12; [left|done].
      * intros v1 v2 Hv1 Hv2. apply H12; [by right|done].
Qed.

Lemma pfree_fmap_cons (c : ascii) ws : pfree ws → pfree ((c ::.) <$> ws).
Proof.
  induction ws as [|w ws IH]; csimpl; [done|].
  intros [Hhd Htl]. split; [|auto].
  intros v Hv. apply list_elem_of_fmap in Hv as (v' & -> & Hv').
  destruct (Hhd v' Hv') as [H1 H2].
  split; intros Hp; apply prefix_cons_inv_2 in Hp; done.
Qed.

Lemma pfree_paths t : pfree (paths t).*2.
Proof.
  induction t as [b f|f l IHl r IHr]; csimpl.
  - split; [|done]. intros v Hv. by apply elem_of_nil in Hv.
  - rewrite fmap_app, <- !list_fmap_compose.
    change (snd ∘ (λ bw : byte * list ascii, (bw.1, "0"%char :: bw.2)))
      with (("0"%char ::.) ∘ (snd : byte * list ascii → list ascii)).
    change (snd ∘ (λ bw : byte * list ascii, (bw.1, "1"%char :: bw.2)))
      with (("1"%char ::.) ∘ (snd : byte * list ascii → list ascii)).
    rewrite !list_fmap_compose. apply pfree_app. split_and!.
    + by apply pfree_fmap_cons.
    + by apply pfree_fmap_cons.
    + intros v1 v2 Hv1 Hv2.
      apply list_elem_of_fmap in Hv1 as (v1' & -> & _).
      apply list_elem_of_fmap in Hv2 as (v2' & -> & _).
      split; intros Hp; apply prefix_cons_inv_1 in Hp; done.
Qed.

Lemma code_table_leaf b f : code_table (Leaf b f) = [(b, lit "0")].
Proof. done. Qed.

Lemma paths_internal_nonempty f l r b w :
  (b, w) ∈ paths (Internal f l r) → w ≠ [].
Proof.
  csimpl. intros Hin. apply elem_of_app in Hin as [Hin|Hin];
    apply list_elem_of_fmap in Hin as ([b' w'] & [= -> ->] & _); done.
Qed.

Lemma code_table_internal f l r :
  code_table (Internal f l r) = paths (Internal f l r).
Proof.
  unfold code_table. rewrite <- (list_fmap_id (paths (Internal f l r))) at 2.
  apply list_fmap_ext. intros i [b w] Hi. simpl.
  apply list_elem_of_lookup_2, paths_internal_nonempty in Hi.
  by destruct w.
Qed.

Lemma pfree_code_table t : pfree (code_table t).*2.
Proof.
  destruct t as [b f|f l r].
  - simpl. split; [|done]. intros v Hv. by apply elem_of_nil in Hv.
  - rewrite code_table_internal. apply pfree_paths.
Qed.

Lemma code_table_nonempty t b w : (b, w) ∈ code_table t → w ≠ [].
Proof.
  destruct t as [b' f|f l r].
  - rewrite code_table_leaf. intros Hin. apply list_elem_of_singleton in Hin.
    by simplify_eq.
  - rewrite code_table_internal. apply paths_internal_nonempty.
Qed.

Lemma paths_binary t b w : (b, w) ∈ paths t → binary w.
Proof.
  revert w. induction t as [b' f|f l IHl r IHr]; intros w; csimpl.
  - intros Hin. apply list_elem_of_singleton in Hin. simplify_eq. constructor.
  - intros Hin. apply elem_of_app in Hin as [Hin|Hin];
      apply list_elem_of_fmap in Hin as ([b0 w0] & [= -> ->] & Hin).
    + apply Forall_cons. split; [by left|by apply IHl].
    + apply Forall_cons. split; [by right|by apply IHr].
Qed.

Lemma code_table_binary t b w : (b, w) ∈ code_table t → binary w.
Proof.
  destruct t as [b' f|f l r].
  - rewrite code_table_leaf. intros Hin. apply list_elem_of_singleton in Hin.
    simplify_eq. constructor; [by left|constructor].
  - rewrite code_table_internal. apply paths_binary.
Qed.

(** A table with distinct keys and prefix-free code words is prefix-free
    and injective as a mapping. *)
Lemma pfree_table_prefix_free (codes : list (byte * list ascii)) :
  pfree codes.*2 → table_prefix_free codes.
Proof.
  intros Hpf a b wa wb Ha Hb Hne Hpre.
  apply dict_get_Some_elem in Ha. apply dict_get_Some_elem in Hb.
  pose proof (pfree_elem _ _ _ _ _ Hpf Ha Hb Hpre). by simplify_eq.
Qed.

Lemma table_prefix_free_on symbols codes :
  table_prefix_free codes → prefix_free_on symbols codes.
Proof. intros Hpf a b wa wb _ _ Hne Ha Hb. by apply (Hpf a b wa wb). Qed.

Lemma table_prefix_free_injective codes :
  table_prefix_free codes → table_injective codes.
Proof. intros Hpf a b wa wb Ha Hb Hne ->. by apply (Hpf a b wb wb). Qed.

(** ** [huffman_compress_bytes] *)

(** On a non-empty input the compressor returns the concatenated code
    words and the table of a Huffman tree for the frequency table. *)
Lemma compress_spec data :
  data ≠ [] →
  ∃ t, build_huffman_tree_from_bytes data = Some t
     ∧ huffman_merge ((λ bf, Leaf bf.1 bf.2) <$> Counter data) t
     ∧ leaves t ≡ₚ Counter data
     ∧ build_codes_from_tree (Some t) = code_table t
     ∧ (∀ b, b ∈ data → is_Some (dict_get (code_table t) b))
     ∧ huffman_compress_bytes data
       = Returned (concat ((λ b, default [] (dict_get (code_table t) b)) <$> data),
                   code_table t).
Proof.
  intros Hne. destruct (build_tree_huffman data Hne) as (t & Hb & Hm).
  pose proof (huffman_merge_leaves _ _ Hm) as Hl.
  rewrite leaf_forest_leaves in Hl.
  assert (NoDup (leaves t).*1) as Hnd by (rewrite Hl; apply Counter_NoDup).
  assert (∀ b, b ∈ data → is_Some (dict_get (code_table t) b)) as Hall.
  { intros b Hin. apply dict_get_is_Some. rewrite code_table_keys, Hl.
    by apply Counter_keys. }
  exists t. split_and!; [done..|by apply build_codes_code_table|done|].
  unfold huffman_compress_bytes. rewrite Hb.
  rewrite build_codes_code_table by done.
  by rewrite encode_bits_total.
Qed.

Lemma count_fold_replicate b k n :
  foldl count_step [(b, k)] (replicate n b) = [(b, k + n)].
Proof.
  revert k. induction n as [|n IH]; intros k; simpl.
  - by rewrite Nat.add_0_r.
  - unfold count_step at 2. simpl. rewrite !decide_True by done. simpl.
    rewrite IH. do 2 f_equal. lia.
Qed.

Lemma encode_bits_replicate b w n :
  encode_bits [(b, w)] (replicate n b) = Returned (concat (replicate n w)).
Proof.
  induction n as [|n IH]; simpl; [done|].
  rewrite decide_True by done. by rewrite IH.
Qed.

Lemma concat_replicate_singleton (c : ascii) n :
  concat (replicate n [c]) = replicate n c.
Proof. induction n as [|n IH]; simpl; [done|]. by rewrite IH. Qed.

Lemma compress_replicate b n :
  huffman_compress_bytes (replicate (S n) b)
  = Returned (replicate (S n) "0"%char, [(b, lit "0")]).
Proof.
  unfold huffman_compress_bytes, build_huffman_tree_from_bytes.
  assert (Counter (replicate (S n) b) = [(b, S n)]) as ->.
  { unfold Counter. simpl. unfold count_step at 2. simpl.
    by rewrite count_fold_replicate. }
  change (heapq.heapify node_lt ((λ bf, Leaf bf.1 bf.2) <$> [(b, S n)]))
    with [Leaf b (S n)].
  cbn - [encode_bits replicate lit].
  rewrite encode_bits_replicate. cbn - [replicate].
  by rewrite concat_replicate_singleton.
Qed.

(** ** Optimality: exchanging the two least frequencies to the bottom *)

Lemma ecost_perm E E' : E ≡ₚ E' → ecost E = ecost E'.
Proof. intros Hp. unfold ecost. by rewrite Hp. Qed.

Lemma total_len_perm E E' : E ≡ₚ E' → total_len E = total_len E'.
Proof. intros Hp. unfold total_len. by rewrite Hp. Qed.

Lemma ecost_cons p U E : ecost ((p, U) :: E) = p * length U + ecost E.
Proof. done. Qed.

Lemma total_len_cons p (U : list ascii) E :
  total_len ((p, U) :: E) = length U + total_len E.
Proof. done. Qed.

(** A non-empty code has an entry whose word is a longest one. *)
Lemma max_entry (E : list (nat * list ascii)) :
  E ≠ [] →
  ∃ p U R, E ≡ₚ (p, U) :: R ∧ ∀ v, v ∈ R.*2 → length v ≤ length U.
Proof.
  induction E as [|[p U] E IH]; [done|]. intros _.
  destruct (decide (E = [])) as [->|Hne].
  - exists p, U, []. split; [done|]. intros v Hv. by apply elem_of_nil in Hv.
  - destruct (IH Hne) as (q & V & R & Hperm & Hmax).
    destruct (decide (length U ≤ length V)) as [Hle|Hgt].
    + exists q, V, ((p, U) :: R). split.
      * rewrite Hperm. apply Permutation_swap.
      * intros v Hv. csimpl in Hv.
        apply elem_of_cons in Hv as [->|Hv]; [done|auto].
    + exists p, U, ((q, V) :: R). split.
      * by rewrite Hperm.
      * intros v Hv. csimpl in Hv.
        apply elem_of_cons in Hv as [->|Hv]; [lia|].
        specialize (Hmax v Hv). lia.
Qed.

(** Giving a least frequency [a] to a longest word [U] does not raise the
    cost: the entry that held [a] takes the frequency [U] had. *)
Lemma repair (rest : list (nat * list ascii)) p U a :
  a ∈ p :: rest.*1 → a ≤ p →
  (∀ v, v ∈ rest.*2 → length v ≤ length U) →
  ∃ rest', rest'.*2 ≡ₚ rest.*2 ∧ a :: rest'.*1 ≡ₚ p :: rest.*1 ∧
           ecost ((a, U) :: rest') ≤ ecost ((p, U) :: rest).
Proof.
  intros Hin Hap Hlen. apply elem_of_cons in Hin as [->|Hin].
  { by exists rest. }
  apply list_elem_of_fmap in Hin as ([a' v] & -> & Hin). simpl in *.
  assert (length v ≤ length U) as Hv.
  { apply Hlen. by apply (list_elem_of_fmap_2 snd) in Hin. }
  apply elem_of_Permutation in Hin as [k Hk].
  exists ((p, v) :: k). split_and!.
  - by rewrite Hk.
  - rewrite Hk. csimpl. apply Permutation_swap.
  - rewrite !ecost_cons, (ecost_perm _ _ Hk), ecost_cons. nia.
Qed.

Lemma flip_bit_other x c : is_bit x → is_bit c → c ≠ x → c = flip_bit x.
Proof. unfold flip_bit. intros [->| ->] [->| ->] Hne; done. Qed.

Lemma flip_bit_is_bit x : is_bit (flip_bit x).
Proof. unfold flip_bit, is_bit. case_decide; auto. Qed.

Lemma binary_snoc u c : binary (u ++ [c]) → binary u ∧ is_bit c.
Proof.
  unfold binary. intros Hb. apply Forall_app in Hb as [Hu Hc].
  split; [done|]. by inversion Hc.
Qed.

(** When [u ++ [x]] is a longest word of a prefix-free binary code, its
    parent [u] is unrelated to every other word but the sibling. *)
Lemma parent_word_free (ws : list (list ascii)) u x :
  is_bit x → pfree ((u ++ [x]) :: ws) → Forall binary ws →
  (∀ v, v ∈ ws → length v ≤ length (u ++ [x])) →
  ∀ v, v ∈ ws → v ≠ u ++ [flip_bit x] →
       ¬ u `prefix_of` v ∧ ¬ v `prefix_of` u.
Proof.
  intros Hx [Hhd _] Hbin Hlen v Hv Hne. destruct (Hhd v Hv) as [H1 H2].
  split.
  - intros [k ->]. destruct k as [|c k].
    + apply H2. rewrite app_nil_r. by exists [x].
    + specialize (Hlen _ Hv). rewrite !length_app in Hlen. simpl in Hlen.
      assert (k = []) as -> by (destruct k; [done|simpl in Hlen; lia]).
      pose proof (proj1 (Forall_forall _ _) Hbin _ Hv) as Hb.
      apply binary_snoc in Hb as [_ Hc].
      destruct (decide (c = x)) as [->|Hcx]; [by apply H1|].
      apply Hne. f_equal. f_equal. by apply flip_bit_other.
  - intros Hp. apply H2. etrans; [exact Hp|]. by exists [x].
Qed.

(** The exchange step: from a prefix-free binary code for the frequencies
    [a :: b :: W], where [a] and [b] are two least ones, a prefix-free
    binary code for [(a + b) :: W] that is cheaper by at least [a + b]. *)
Lemma merge_bound n E a b W :
  total_len E < n →
  pfree E.*2 → Forall binary E.*2 →
  E.*1 ≡ₚ a :: b :: W → a ≤ b → (∀ c, c ∈ W → b ≤ c) →
  ∃ E', pfree E'.*2 ∧ Forall binary E'.*2 ∧ E'.*1 ≡ₚ (a + b) :: W ∧
        ecost E' + a + b ≤ ecost E.
Proof.
  revert E. induction n as [|n IH]; intros E Hn Hpf Hbin Hw Hab HW; [lia|].
  assert (E ≠ []) as HE.
  { intros ->. by apply Permutation_nil_cons in Hw. }
  destruct (max_entry E HE) as (p & U & R & Hperm & Hmax).
  assert (E.*2 ≡ₚ U :: R.*2) as Hwords by (by rewrite Hperm).
  assert (p :: R.*1 ≡ₚ a :: b :: W) as Hweights by (by rewrite <- Hw, Hperm).
  pose proof (pfree_Permutation _ _ Hwords Hpf) as HpfU.
  assert (Forall binary (U :: R.*2)) as HbinU by (by rewrite <- Hwords).
  apply Forall_cons in HbinU as [HbU HbR].
  assert (∀ c, c ∈ a :: b :: W → a ≤ c) as Hamin.
  { intros c Hc. apply elem_of_cons in Hc as [->|Hc]; [done|].
    apply elem_of_cons in Hc as [->|Hc]; [done|]. specialize (HW c Hc). lia. }
  assert (R ≠ []) as HR.
  { intros ->. apply Permutation_length in Hweights. simpl in Hweights. lia. }
  assert (U ≠ []) as HU.
  { intros ->. destruct R as [|[q V] R]; [done|]. destruct HpfU as [Hhd _].
    destruct (Hhd V) as [Hno _]; [left|]. apply Hno, prefix_nil. }
  destruct (exists_last HU) as (u & x & ->).
  apply binary_snoc in HbU as [Hbu Hbx].
  pose proof (parent_word_free _ u x Hbx HpfU HbR Hmax) as Hfree.
  assert (total_len E = length u + 1 + total_len R) as Hlen.
  { rewrite (total_len_perm _ _ Hperm), total_len_cons, length_app. done. }
  assert (ecost E = p * (length u + 1) + ecost R) as Hcost.
  { rewrite (ecost_perm _ _ Hperm), ecost_cons, length_app. done. }
  destruct (decide (u ++ [flip_bit x] ∈ R.*2)) as [Hsib|Hsib].
  - (* the sibling is a code word: give [a] and [b] to the two siblings *)
    destruct (repair R p (u ++ [x]) a) as (R1 & Hw1 & Hf1 & Hc1).
    { rewrite Hweights. left. }
    { apply Hamin. rewrite <- Hweights. left. }
    { done. }
    assert (R1.*1 ≡ₚ b :: W) as Hf1'.
    { apply (Permutation_cons_inv (a := a)). by rewrite Hf1. }
    rewrite <- Hw1 in Hsib.
    apply list_elem_of_fmap in Hsib as ([q' V] & HV & Hsib). simpl in HV. subst V.
    apply elem_of_Permutation in Hsib as [R2 HR2].
    assert (q' :: R2.*1 ≡ₚ b :: W) as Hf2 by (by rewrite <- Hf1', HR2).
    assert ((u ++ [flip_bit x]) :: R2.*2 ≡ₚ R.*2) as Hw2 by (by rewrite <- Hw1, HR2).
    destruct (repair R2 q' (u ++ [flip_bit x]) b) as (R3 & Hw3 & Hf3 & Hc3).
    { rewrite Hf2. left. }
    { assert (q' ∈ b :: W) as Hq by (rewrite <- Hf2; left).
      apply elem_of_cons in Hq as [->|Hq]; [done|by apply HW]. }
    { intros v Hv. assert (length v ≤ length (u ++ [x])) as Hle.
      { apply Hmax. rewrite <- Hw2. by right. }
      rewrite length_app in Hle |- *. done. }
    assert (R3.*1 ≡ₚ W) as Hf3'.
    { apply (Permutation_cons_inv (a := b)). by rewrite Hf3. }
    assert (pfree ((u ++ [flip_bit x]) :: R2.*2)) as Hpf2.
    { apply (pfree_Permutation R.*2); [done|]. by destruct HpfU. }
    exists ((a + b, u) :: R3). csimpl. split_and!.
    + intros v Hv. rewrite Hw3 in Hv. apply Hfree.
      * rewrite <- Hw2. by right.
      * intros ->. destruct Hpf2 as [Hhd _]. by destruct (Hhd _ Hv).
    + apply (pfree_Permutation R2.*2); [done|]. by destruct Hpf2.
    + apply Forall_cons. split; [done|]. rewrite Hw3.
      assert (Forall binary ((u ++ [flip_bit x]) :: R2.*2)) as Hb2 by (by rewrite Hw2).
      by apply Forall_cons in Hb2 as [_ ?].
    + by rewrite Hf3'.
    + rewrite ecost_cons. rewrite !ecost_cons in Hc1, Hc3.
      rewrite (ecost_perm _ _ HR2), ecost_cons in Hc1.
      rewrite !length_app in Hc1. rewrite !length_app in Hc3.
      simpl in Hc1, Hc3. nia.
  - (* no sibling: the longest word can lose its last bit *)
    destruct (IH ((p, u) :: R)) as (E' & HpfE & HbinE & HwE & HcE).
    + rewrite total_len_cons. lia.
    + csimpl. split; [|by destruct HpfU].
      intros v Hv. apply Hfree; [done|]. by intros ->.
    + csimpl. by apply Forall_cons.
    + done.
    + done.
    + done.
    + exists E'. split_and!; [done..|].
      rewrite ecost_cons in HcE. nia.
Qed.

(** ** Optimality of the trees of Huffman's algorithm *)

(** The tree of Huffman's algorithm costs no more than what the forest
    already costs plus the cost of any prefix-free binary code for the
    frequencies of the forest's trees. *)
Lemma huffman_optimal F t :
  huffman_merge F t → Forall freq_ok F →
  ∀ E, pfree E.*2 → Forall binary E.*2 → E.*1 ≡ₚ freq <$> F →
       cost t ≤ sum_list (cost <$> F) + ecost E.
Proof.
  induction 1 as [t|F G a b F' t H1 H2 H3 H4 H5 IH]; intros Hok E Hpf Hbin Hw.
  - csimpl. lia.
  - rewrite H1 in Hw, Hok. csimpl in Hw.
    apply Forall_cons in Hok as [Ha Hok]. apply Forall_cons in Hok as [Hb Hok].
    destruct (merge_bound (S (total_len E)) E (freq a) (freq b) (freq <$> F'))
      as (E' & HpfE & HbinE & HwE & HcE); [lia|done|done|done|done| |].
    { intros c Hc. apply list_elem_of_fmap in Hc as (x & -> & Hx). by apply H3. }
    assert (Forall freq_ok G) as HokG.
    { rewrite H4. apply Forall_cons. split; [|done]. simpl. done. }
    assert (E'.*1 ≡ₚ freq <$> G) as HwG by (by rewrite H4).
    specialize (IH HokG E' HpfE HbinE HwG).
    rewrite H4 in IH. rewrite H1. csimpl in *.
    rewrite <- (freq_ok_wsum a), <- (freq_ok_wsum b) in IH by done. lia.
Qed.

Lemma ecost_extend (c : ascii) E :
  ecost ((λ e, (e.1, c :: e.2)) <$> E) = ecost E + sum_list E.*1.
Proof.
  induction E as [|[p U] E IH]; csimpl; [done|].
  rewrite !ecost_cons, IH. simpl. lia.
Qed.

Lemma sum_list_app (l1 l2 : list nat) :
  sum_list (l1 ++ l2) = sum_list l1 + sum_list l2.
Proof. induction l1 as [|x l1 IH]; simpl; [done|]. rewrite IH. lia. Qed.

Lemma ecost_app E1 E2 : ecost (E1 ++ E2) = ecost E1 + ecost E2.
Proof. unfold ecost. by rewrite fmap_app, sum_list_app. Qed.

Lemma tree_entries_weights t : (tree_entries t).*1 = (leaves t).*2.
Proof.
  induction t as [b f|f l IHl r IHr]; csimpl; [done|].
  by rewrite !fmap_app, <- IHl, <- IHr, <- !list_fmap_compose.
Qed.

Lemma tree_entries_words t : (tree_entries t).*2 = (paths t).*2.
Proof.
  induction t as [b f|f l IHl r IHr]; csimpl; [done|].
  rewrite !fmap_app, <- !list_fmap_compose.
  change (snd ∘ (λ e : nat * list ascii, (e.1, "0"%char :: e.2)))
    with (("0"%char ::.) ∘ (snd : nat * list ascii → list ascii)).
  change (snd ∘ (λ e : nat * list ascii, (e.1, "1"%char :: e.2)))
    with (("1"%char ::.) ∘ (snd : nat * list ascii → list ascii)).
  change (snd ∘ (λ bw : byte * list ascii, (bw.1, "0"%char :: bw.2)))
    with (("0"%char ::.) ∘ (snd : byte * list ascii → list ascii)).
  change (snd ∘ (λ bw : byte * list ascii, (bw.1, "1"%char :: bw.2)))
    with (("1"%char ::.) ∘ (snd : byte * list ascii → list ascii)).
  by rewrite !list_fmap_compose, IHl, IHr.
Qed.

Lemma tree_entries_wsum t : sum_list (tree_entries t).*1 = wsum t.
Proof.
  rewrite tree_entries_weights.
  induction t as [b f|f l IHl r IHr]; csimpl; [lia|].
  by rewrite fmap_app, sum_list_app, IHl, IHr.
Qed.

Lemma ecost_tree_entries t : ecost (tree_entries t) = cost t.
Proof.
  induction t as [b f|f l IHl r IHr]; csimpl; [unfold ecost; simpl; lia|].
  rewrite ecost_app, !ecost_extend, IHl, IHr, !tree_entries_wsum. lia.
Qed.

Lemma binary_paths t : Forall binary (paths t).*2.
Proof.
  apply Forall_forall. intros w Hw.
  apply list_elem_of_fmap in Hw as ([b w'] & -> & Hin). by eapply paths_binary.
Qed.

Lemma leaf_forest_freq (freqs : list (byte * nat)) :
  freq <$> ((λ bf, Leaf bf.1 bf.2) <$> freqs) = freqs.*2.
Proof. rewrite <- list_fmap_compose. by apply list_fmap_ext. Qed.

Lemma leaf_forest_cost (freqs : list (byte * nat)) :
  sum_list (cost <$> ((λ bf, Leaf bf.1 bf.2) <$> freqs)) = 0.
Proof. induction freqs as [|[b f] freqs IH]; csimpl; [done|]. by rewrite IH. Qed.

(** Among all the trees over the same leaves, the one of Huffman's
    algorithm is a cheapest. *)
Lemma huffman_merge_cost_le (freqs : list (byte * nat)) t t' :
  huffman_merge ((λ bf, Leaf bf.1 bf.2) <$> freqs) t →
  leaves t' ≡ₚ freqs →
  cost t ≤ cost t'.
Proof.
  intros Hm Hl.
  pose proof (huffman_optimal _ _ Hm (leaf_forest_freq_ok freqs) (tree_entries t'))
    as Hopt.
  rewrite leaf_forest_cost, ecost_tree_entries in Hopt. apply Hopt.
  - rewrite tree_entries_words. apply pfree_paths.
  - rewrite tree_entries_words. apply binary_paths.
  - by rewrite tree_entries_weights, leaf_forest_freq, Hl.
Qed.

(** ** The cost of the table of a tree *)

Lemma weighted_cost_perm freqs freqs' codes :
  freqs ≡ₚ freqs' → weighted_cost freqs codes = weighted_cost freqs' codes.
Proof. intros Hp. unfold weighted_cost. by rewrite Hp. Qed.

Lemma weighted_cost_app freqs1 freqs2 codes :
  weighted_cost (freqs1 ++ freqs2) codes
  = weighted_cost freqs1 codes + weighted_cost freqs2 codes.
Proof. unfold weighted_cost. by rewrite fmap_app, sum_list_app. Qed.

Lemma weighted_cost_paths t p codes :
  (∀ b w, (b, w) ∈ paths t → dict_get codes b = Some (p ++ w)) →
  weighted_cost (leaves t) codes = cost t + length p * wsum t.
Proof.
  revert p. induction t as [b f|f l IHl r IHr]; intros p Hget; csimpl.
  - unfold weighted_cost, code_len. csimpl.
    rewrite (Hget b []) by left. simpl. rewrite app_nil_r. lia.
  - rewrite weighted_cost_app.
    rewrite (IHl (p ++ ["0"%char])), (IHr (p ++ ["1"%char])).
    + rewrite !length_app. simpl. lia.
    + intros b w Hin. rewrite <- app_assoc. apply Hget.
      apply elem_of_app. right. apply list_elem_of_fmap. by exists (b, w).
    + intros b w Hin. rewrite <- app_assoc. apply Hget.
      apply elem_of_app. left. apply list_elem_of_fmap. by exists (b, w).
Qed.

Lemma weighted_cost_tree t :
  NoDup (leaves t).*1 → weighted_cost (leaves t) (paths t) = cost t.
Proof.
  intros Hnd. rewrite (weighted_cost_paths t []); [simpl; lia|].
  intros b w Hin. simpl. apply dict_get_NoDup; [by rewrite paths_keys|done].
Qed.

(** The weighted length of the table of a tree, over the frequency table
    the tree was built for. *)
Lemma table_cost_spec t freqs :
  leaves t ≡ₚ freqs → NoDup freqs.*1 →
  weighted_cost freqs (code_table t) = table_cost t.
Proof.
  intros Hl Hnd. rewrite <- (weighted_cost_perm _ _ _ Hl).
  destruct t as [b f|f l r].
  - unfold weighted_cost, code_len. simpl. rewrite decide_True by done. simpl. lia.
  - rewrite code_table_internal. apply weighted_cost_tree. by rewrite Hl.
Qed.

Lemma ecost_entries freqs codes :
  ecost (entries freqs codes) = weighted_cost freqs codes.
Proof. unfold ecost, entries, weighted_cost. by rewrite <- list_fmap_compose. Qed.

Lemma entries_weights freqs codes : (entries freqs codes).*1 = freqs.*2.
Proof. unfold entries. by rewrite <- list_fmap_compose. Qed.

(** A prefix-free binary code for a frequency table, as a list of
    entries. *)
Lemma entries_prefix_code freqs codes :
  NoDup freqs.*1 → prefix_code freqs codes →
  pfree (entries freqs codes).*2 ∧ Forall binary (entries freqs codes).*2.
Proof.
  intros Hnd [Hall Hpf]. induction freqs as [|[b f] freqs IH]; csimpl.
  { split; [done|constructor]. }
  apply NoDup_cons in Hnd as [Hb Hnd].
  destruct IH as [IH1 IH2]; [done|by intros b' Hb'; apply Hall; right| |].
  { intros a0 b0 wa wb Ha0 Hb0. apply Hpf; by right. }
  destruct (Hall b) as (w & Hw & Hne & Hbw); [left|].
  rewrite Hw. simpl. split_and!; [|done|by apply Forall_cons].
  intros v Hv.
  apply list_elem_of_fmap in Hv as ([f' v'] & -> & Hin).
  apply list_elem_of_fmap in Hin as ([b' f''] & [= -> ->] & Hin').
  assert (b' ∈ freqs.*1) as Hb' by (by apply (list_elem_of_fmap_2 fst) in Hin').
  destruct (Hall b') as (w' & Hw' & _); [by right|].
  rewrite Hw'. simpl.
  assert (b ≠ b') as Hbb by (by intros ->).
  split; [apply (Hpf b b' w w')|apply (Hpf b' b w' w)];
    try done; try (by left); by right.
Qed.

Lemma leaves_nonempty t : leaves t ≠ [].
Proof.
  induction t as [b f|f l IHl r IHr]; simpl; [done|].
  intros Hnil. by apply app_eq_nil in Hnil as [? _].
Qed.

Lemma leaves_internal_length f l r : 2 ≤ length (leaves (Internal f l r)).
Proof.
  simpl. rewrite length_app.
  pose proof (leaves_nonempty l). pose proof (leaves_nonempty r).
  destruct (leaves l), (leaves r); simpl; try done; lia.
Qed.

(** The table of the tree of Huffman's algorithm is a prefix-free binary
    code for the frequency table, of least weighted length. *)
Lemma huffman_table_optimal freqs t codes' :
  NoDup freqs.*1 →
  huffman_merge ((λ bf, Leaf bf.1 bf.2) <$> freqs) t →
  prefix_code freqs codes' →
  prefix_code freqs (code_table t) ∧
  weighted_cost freqs (code_table t) ≤ weighted_cost freqs codes'.
Proof.
  intros Hnd Hm Hpc.
  pose proof (huffman_merge_leaves _ _ Hm) as Hl. rewrite leaf_forest_leaves in Hl.
  split.
  - split; [|apply table_prefix_free_on, pfree_table_prefix_free, pfree_code_table].
    intros b Hb. rewrite <- Hl, <- code_table_keys in Hb.
    apply dict_get_is_Some in Hb as [w Hw]. exists w.
    apply dict_get_Some_elem in Hw as Hin.
    split_and!; [done|by eapply code_table_nonempty|by eapply code_table_binary].
  - rewrite (table_cost_spec t freqs Hl Hnd).
    destruct t as [b f|f l r]; simpl.
    + apply Permutation_singleton_l in Hl as <-.
      destruct Hpc as [Hall _]. destruct (Hall b) as (w & Hw & Hne & _); [left|].
      unfold weighted_cost, code_len. simpl. rewrite Hw. simpl.
      destruct w; [done|]. simpl. nia.
    + destruct (entries_prefix_code freqs codes' Hnd Hpc) as [Hpf Hbin].
      pose proof (huffman_optimal _ _ Hm (leaf_forest_freq_ok freqs)
                    (entries freqs codes') Hpf Hbin) as Hopt.
      rewrite leaf_forest_cost, ecost_entries in Hopt. apply Hopt.
      by rewrite entries_weights, leaf_forest_freq.
Qed.

(** With two symbols or more, the code words of a prefix-free table are
    not empty: the empty word is a prefix of every word. *)
Lemma prefix_code_two data codes a b :
  a ∈ data → b ∈ data → a ≠ b →
  (∀ x, x ∈ data → ∃ w, dict_get codes x = Some w ∧ binary w) →
  prefix_free_on data codes →
  prefix_code (Counter data) codes.
Proof.
  intros Ha Hb Hab Hall Hpf. split.
  - intros x Hx. apply (proj1 (Counter_keys data x)) in Hx.
    destruct (Hall x Hx) as (w & Hw & Hbw).
    exists w. split_and!; [done| |done]. intros ->.
    destruct (decide (x = a)) as [->|Hxa].
    + destruct (Hall b Hb) as (w' & Hw' & _).
      apply (Hpf a b [] w'); [done..|apply prefix_nil].
    + destruct (Hall a Ha) as (w' & Hw' & _).
      apply (Hpf x a [] w'); [done..|apply prefix_nil].
  - intros x y wx wy Hx Hy. apply Hpf; by apply Counter_keys.
Qed.

(** Whatever the choices of Huffman's algorithm, the table of its tree
    has the same weighted length. *)
Lemma huffman_table_cost_unique freqs t t' :
  NoDup freqs.*1 →
  huffman_merge ((λ bf, Leaf bf.1 bf.2) <$> freqs) t →
  huffman_merge ((λ bf, Leaf bf.1 bf.2) <$> freqs) t' →
  weighted_cost freqs (code_table t) = weighted_cost freqs (code_table t').
Proof.
  intros Hnd Hm Hm'.
  pose proof (huffman_merge_leaves _ _ Hm) as Hl. rewrite leaf_forest_leaves in Hl.
  pose proof (huffman_merge_leaves _ _ Hm') as Hl'. rewrite leaf_forest_leaves in Hl'.
  rewrite (table_cost_spec t freqs Hl Hnd), (table_cost_spec t' freqs Hl' Hnd).
  pose proof (huffman_merge_cost_le freqs t t' Hm Hl') as H1.
  pose proof (huffman_merge_cost_le freqs t' t Hm' Hl) as H2.
  assert (length (leaves t) = length (leaves t')) as Hlen by (by rewrite Hl, Hl').
  destruct t as [b f|f l r], t' as [b' f'|f' l' r']; simpl.
  - rewrite <- Hl' in Hl. apply Permutation_singleton_inj in Hl. by simplify_eq.
  - pose proof (leaves_internal_length f' l' r'). simpl in *. lia.
  - pose proof (leaves_internal_length f l r). simpl in *. lia.
  - simpl in H1, H2. lia.
Qed.

(** * The claims of the specification *)

(** C1. For every byte sequence [data], [huffman_compress_bytes data]
    returns a bit stream and the code table built from the frequencies of
    [data], and [huffman_decompress_bits] on that stream with that table
    returns exactly [data]. *)
Theorem huffman_roundtrip (data : list byte) :
  ∃ bits codes,
    huffman_compress_bytes data = Returned (bits, codes) ∧
    huffman_decompress_bits bits codes = Returned data.
Proof.
  destruct (decide (data = [])) as [->|Hne].
  { by exists [], []. }
  destruct (compress_spec data Hne) as (t & Hb & Hm & Hl & Hc & Hall & Hcomp).
  eexists _, _. split; [exact Hcomp|].
  unfold huffman_decompress_bits. f_equal.
  rewrite decode_loop_roundtrip; [done|apply pfree_code_table|].
  intros b Hin. destruct (Hall b Hin) as [w Hw]. exists w. split; [done|].
  eapply code_table_nonempty. by apply dict_get_Some_elem.
Qed.

(** C2, as stated, fails. With the table a: "0", b: "10", c: "11" the
    stream "0101" ends with the unresolved buffer "1", and the table built
    from "ab" decodes the stream built from "cd"; in both cases the decoder
    returns bytes (a truncated sequence, a wrong sequence) and surfaces no
    failure. *)
Lemma decoder_silent_counterexample :
  (final_buffer (lit "0101")
     [("a"%byte, lit "0"); ("b"%byte, lit "10"); ("c"%byte, lit "11")] ≠ [] ∧
   huffman_decompress_bits (lit "0101")
     [("a"%byte, lit "0"); ("b"%byte, lit "10"); ("c"%byte, lit "11")]
   = Returned (blit "ab") ∧
   ¬ is_failure (huffman_decompress_bits (lit "0101")
     [("a"%byte, lit "0"); ("b"%byte, lit "10"); ("c"%byte, lit "11")])) ∧
  (∃ bitsB codesB bitsA codesA,
     huffman_compress_bytes (blit "cd") = Returned (bitsB, codesB) ∧
     huffman_compress_bytes (blit "ab") = Returned (bitsA, codesA) ∧
     huffman_decompress_bits bitsB codesA = Returned (blit "ab") ∧
     ¬ is_failure (huffman_decompress_bits bitsB codesA)).
Proof.
  split.
  - split_and!; [discriminate|reflexivity|]. intros [e He]. discriminate.
  - eexists _, _, _, _. split_and!; [reflexivity|reflexivity|reflexivity|].
    intros [e He]. discriminate.
Qed.

(** C2, amended. For every bit stream and code table the decoder neither
    hangs nor fails: it returns a byte sequence. The bits left unresolved
    in the buffer at the end of the stream are dropped: the returned bytes
    are those of the stream without these trailing bits, which decodes
    with an empty final buffer. *)
Theorem decoder_drops_unresolved (encoded_bits : list ascii)
    (codes : list (byte * list ascii)) :
  ∃ out body,
    huffman_decompress_bits encoded_bits codes = Returned out ∧
    ¬ is_failure (huffman_decompress_bits encoded_bits codes) ∧
    encoded_bits = body ++ final_buffer encoded_bits codes ∧
    huffman_decompress_bits body codes = Returned out ∧
    final_buffer body codes = [].
Proof.
  destruct (decode_loop_greedy codes encoded_bits []) as (ws & Heq & Hall & Htail).
  { intros p Hp Hpre. by apply prefix_nil_inv in Hpre. }
  pose proof (decode_loop_first_matches codes ws _ [] [] Hall) as Hbody.
  rewrite app_nil_r in Hbody. simpl in Hbody.
  eexists _, (concat ws). split_and!; [done| |done| |].
  - intros [e He]. done.
  - unfold huffman_decompress_bits. by rewrite Hbody.
  - unfold final_buffer. by rewrite Hbody.
Qed.

(** C3. For every non-empty byte sequence, the code table that
    [build_codes_from_tree] produces from the tree of
    [build_huffman_tree_from_bytes] is a prefix-free binary code for the
    frequency table of the sequence, and its sum of
    [frequency(symbol) × length(code(symbol))] is at most that of any
    prefix-free binary code for this frequency table. A code is, as in the
    data model, an assignment of non-empty bit strings; with two distinct
    symbols or more, prefix-freeness alone makes the words non-empty, and
    the table is then of least cost among all the prefix-free assignments
    of bit strings. For "aaabbc" the weighted cost is 9, and it is 9 for
    the table of every tree that Huffman's algorithm can build from the
    three leaves, whatever the order of the forest and whichever of two
    trees of equal frequency is taken first. *)
Theorem huffman_codes_optimal :
  (∀ data codes',
     data ≠ [] → prefix_code (Counter data) codes' →
     prefix_code (Counter data)
       (build_codes_from_tree (build_huffman_tree_from_bytes data)) ∧
     weighted_cost (Counter data)
       (build_codes_from_tree (build_huffman_tree_from_bytes data))
     ≤ weighted_cost (Counter data) codes') ∧
  (∀ data codes' a b,
     a ∈ data → b ∈ data → a ≠ b →
     (∀ x, x ∈ data → ∃ w, dict_get codes' x = Some w ∧ binary w) →
     prefix_free_on data codes' →
     weighted_cost (Counter data)
       (build_codes_from_tree (build_huffman_tree_from_bytes data))
     ≤ weighted_cost (Counter data) codes') ∧
  weighted_cost (Counter (blit "aaabbc"))
    (build_codes_from_tree (build_huffman_tree_from_bytes (blit "aaabbc"))) = 9 ∧
  (∀ forest t,
     forest ≡ₚ (λ bf, Leaf bf.1 bf.2) <$> Counter (blit "aaabbc") →
     huffman_merge forest t →
     weighted_cost (Counter (blit "aaabbc")) (build_codes_from_tree (Some t)) = 9).
Proof.
  assert (∀ data codes',
     data ≠ [] → prefix_code (Counter data) codes' →
     prefix_code (Counter data)
       (build_codes_from_tree (build_huffman_tree_from_bytes data)) ∧
     weighted_cost (Counter data)
       (build_codes_from_tree (build_huffman_tree_from_bytes data))
     ≤ weighted_cost (Counter data) codes') as Hopt.
  { intros data codes' Hne Hpc.
    destruct (compress_spec data Hne) as (t & Hb & Hm & Hl & Hc & _).
    rewrite Hb, Hc. apply huffman_table_optimal; [apply Counter_NoDup|done..]. }
  split_and!.
  - exact Hopt.
  - intros data codes' a b Ha Hb Hab Hall Hpf.
    apply Hopt; [intros ->; by apply elem_of_nil in Ha|].
    by apply (prefix_code_two data codes' a b).
  - reflexivity.
  - intros forest t Hperm Hm.
    apply (huffman_merge_perm _ _ _ Hperm) in Hm.
    pose proof (huffman_merge_leaves _ _ Hm) as Hl. rewrite leaf_forest_leaves in Hl.
    rewrite build_codes_code_table by (rewrite Hl; apply Counter_NoDup).
    destruct (compress_spec (blit "aaabbc")) as (t0 & Hb0 & Hm0 & _ & Hc0 & _); [done|].
    rewrite (huffman_table_cost_unique _ t t0 (Counter_NoDup _) Hm Hm0).
    rewrite <- Hc0, <- Hb0. reflexivity.
Qed.

Lemma huffman_codes_optimal_witness :
  (prefix_code (Counter (blit "ab"))
     (build_codes_from_tree (build_huffman_tree_from_bytes (blit "ab"))) ∧
   weighted_cost (Counter (blit "ab"))
     (build_codes_from_tree (build_huffman_tree_from_bytes (blit "ab")))
   ≤ weighted_cost (Counter (blit "ab"))
       [("a"%byte, lit "10"); ("b"%byte, lit "0")]) ∧
  weighted_cost (Counter (blit "aaabbc"))
    (build_codes_from_tree
       (Some (Internal 6 (Internal 3 (Leaf "c" 1) (Leaf "b" 2)) (Leaf "a" 3)))) = 9.
Proof.
  split.
  - apply (proj1 huffman_codes_optimal (blit "ab")
             [("a"%byte, lit "10"); ("b"%byte, lit "0")]).
    + discriminate.
    + split.
      * intros b Hb. apply list_elem_of_In in Hb. simpl in Hb.
        destruct Hb as [<-|[<-|[]]]; eexists; (split; [reflexivity|]);
          (split; [discriminate|]);
          repeat (apply Forall_cons; split; [by (left + right)|]);
          apply Forall_nil_2.
      * apply table_prefix_free_on, pfree_table_prefix_free.
        simpl. split_and!; [| |done].
        -- intros v Hv. apply list_elem_of_singleton in Hv as ->.
           split; intros [k Hk]; discriminate Hk.
        -- intros v Hv. by apply elem_of_nil in Hv.
  - apply (proj2 (proj2 (proj2 huffman_codes_optimal))
             [Leaf "c" 1; Leaf "b" 2; Leaf "a" 3]).
    + symmetry. apply (Permutation_rev [Leaf "a"%byte 3; Leaf "b"%byte 2; Leaf "c"%byte 1]).
    + apply (huffman_step _ [Internal 3 (Leaf "c" 1) (Leaf "b" 2); Leaf "a" 3]
               (Leaf "c" 1) (Leaf "b" 2) [Leaf "a" 3]);
        [reflexivity|simpl; lia| |reflexivity|].
      { intros c Hc. apply list_elem_of_singleton in Hc as ->. simpl. lia. }
      apply (huffman_step _ [Internal 6 (Internal 3 (Leaf "c" 1) (Leaf "b" 2)) (Leaf "a" 3)]
               (Internal 3 (Leaf "c" 1) (Leaf "b" 2)) (Leaf "a" 3) []);
        [reflexivity|simpl; lia| |reflexivity|constructor].
      intros c Hc. by apply elem_of_nil in Hc.
Defined.

(** C4. For every byte sequence with at least two distinct symbols, the
    builder returns a tree, and the code table that [build_codes_from_tree]
    produces from it has an entry for exactly the symbols of the sequence,
    is injective (no two symbols share a code) and is prefix-free (no
    symbol's code is a prefix of another symbol's code). *)
Theorem codes_injective_prefix_free (data : list byte) (a b : byte) :
  a ∈ data → b ∈ data → a ≠ b →
  ∃ root,
    build_huffman_tree_from_bytes data = Some root ∧
    (∀ x, x ∈ data ↔ is_Some (dict_get (build_codes_from_tree (Some root)) x)) ∧
    table_injective (build_codes_from_tree (Some root)) ∧
    table_prefix_free (build_codes_from_tree (Some root)).
Proof.
  intros Ha _ _.
  assert (data ≠ []) as Hne by (intros ->; by apply elem_of_nil in Ha).
  destruct (compress_spec data Hne) as (t & Hb & Hm & Hl & Hc & Hall & Hcomp).
  exists t. rewrite Hc.
  pose proof (pfree_table_prefix_free _ (pfree_code_table t)) as Hpf.
  split_and!; [done| |by apply table_prefix_free_injective|done].
  intros x. rewrite dict_get_is_Some, code_table_keys, Hl. symmetry.
  apply Counter_keys.
Qed.

Lemma codes_injective_prefix_free_witness :
  ∃ root,
    build_huffman_tree_from_bytes (blit "abracadabra") = Some root ∧
    (∀ x, x ∈ blit "abracadabra"
          ↔ is_Some (dict_get (build_codes_from_tree (Some root)) x)) ∧
    table_injective (build_codes_from_tree (Some root)) ∧
    table_prefix_free (build_codes_from_tree (Some root)).
Proof.
  apply (codes_injective_prefix_free (blit "abracadabra") "a"%byte "b"%byte).
  - left.
  - right. left.
  - discriminate.
Defined.

(** C5. For every non-empty byte sequence all of whose bytes are one symbol
    [b], [huffman_compress_bytes] assigns [b] the single-bit code "0", and
    the encoded bit stream is one "0" per input byte, so its length is the
    input length. *)
Theorem single_symbol (data : list byte) (b : byte) :
  data ≠ [] → (∀ x, x ∈ data → x = b) →
  huffman_compress_bytes data
  = Returned (replicate (length data) "0"%char, [(b, lit "0")])
  ∧ length (replicate (length data) "0"%char) = length data.
Proof.
  intros Hne Hall. split; [|apply length_replicate].
  assert (data = replicate (length data) b) as HS.
  { symmetry. apply replicate_as_Forall. split; [done|].
    apply Forall_forall. intros x Hx. symmetry. by apply Hall. }
  destruct (length data) as [|n] eqn:Hlen.
  { destruct data; [done|simpl in Hlen; lia]. }
  rewrite HS. apply compress_replicate.
Qed.

Lemma single_symbol_witness :
  huffman_compress_bytes (blit "AAAA")
  = Returned (replicate (length (blit "AAAA")) "0"%char, [("A"%byte, lit "0")])
  ∧ length (replicate (length (blit "AAAA")) "0"%char) = length (blit "AAAA").
Proof.
  apply (single_symbol (blit "AAAA") "A"%byte).
  - discriminate.
  - intros x Hx. apply list_elem_of_In in Hx. simpl in Hx. intuition.
Defined.

(** C6. For every byte sequence and code table with an entry for every
    symbol of the sequence, the encoding step of [huffman_compress_bytes]
    returns a bit stream whose length is the sum, over the distinct symbols
    [s] of the sequence, of [frequency(s) × length(code(s))]; and
    [huffman_compress_bytes] returns a table with an entry for every symbol
    of the sequence and the stream of the encoding step for that table,
    which has that length for the table returned. *)
Theorem encoded_length (data : list byte) (codes : list (byte * list ascii)) :
  (∀ b, b ∈ data → is_Some (dict_get codes b)) →
  (∃ bits, encode_bits codes data = Returned bits ∧
           length bits = weighted_cost (Counter data) codes) ∧
  (∃ bits' codes', huffman_compress_bytes data = Returned (bits', codes') ∧
           (∀ b, b ∈ data → is_Some (dict_get codes' b)) ∧
           encode_bits codes' data = Returned bits' ∧
           length bits' = weighted_cost (Counter data) codes').
Proof.
  intros Hall. split.
  - eexists. split; [by apply encode_bits_total|].
    by rewrite length_concat_codes, weighted_cost_Counter.
  - destruct (decide (data = [])) as [->|Hne].
    { exists [], []. split_and!; [done| |done..]. by intros b Hb%elem_of_nil. }
    destruct (compress_spec data Hne) as (t & Hb & Hm & Hl & Hc & Hall' & Hcomp).
    eexists _, _. split_and!; [exact Hcomp|exact Hall'|by apply encode_bits_total|].
    by rewrite length_concat_codes, weighted_cost_Counter.
Qed.

Lemma encoded_length_witness :
  (∃ bits, encode_bits [("a"%byte, lit "0"); ("b"%byte, lit "10")] (blit "abba")
           = Returned bits ∧
           length bits
           = weighted_cost (Counter (blit "abba"))
               [("a"%byte, lit "0"); ("b"%byte, lit "10")]) ∧
  (∃ bits' codes', huffman_compress_bytes (blit "abba") = Returned (bits', codes') ∧
           (∀ b, b ∈ blit "abba" → is_Some (dict_get codes' b)) ∧
           encode_bits codes' (blit "abba") = Returned bits' ∧
           length bits' = weighted_cost (Counter (blit "abba")) codes').
Proof.
  apply (encoded_length (blit "abba") [("a"%byte, lit "0"); ("b"%byte, lit "10")]).
  intros b Hb. apply list_elem_of_In in Hb. simpl in Hb.
  destruct Hb as [<-|[<-|[<-|[<-|[]]]]]; by eexists.
Defined.

(** C7. Encoding the empty byte sequence returns, without an error, the
    empty bit stream and the empty code table; decoding the empty stream
    with the empty table returns the empty byte sequence. *)
Theorem empty_input :
  huffman_compress_bytes [] = Returned ([], []) ∧
  huffman_decompress_bits [] [] = Returned [].
Proof. split; reflexivity. Qed.

(** C8. For every byte sequence and code table, the encoding step raises
    an error exactly when some symbol of the sequence has no entry in the
    table (a [KeyError]; no symbol is skipped or replaced); when every
    symbol has an entry it returns the concatenation, in input order, of
    the symbols' codes. *)
Theorem encode_fails_iff_missing (codes : list (byte * list ascii))
    (data : list byte) :
  (is_failure (encode_bits codes data)
   ↔ ∃ b, b ∈ data ∧ dict_get codes b = None) ∧
  ((∃ bits, encode_bits codes data = Returned bits)
   ↔ ∀ b, b ∈ data → is_Some (dict_get codes b)) ∧
  (∀ bits, encode_bits codes data = Returned bits →
     bits = concat ((λ b, default [] (dict_get codes b)) <$> data)).
Proof.
  split_and!.
  - split.
    + intros [e He].
      destruct (decide (Forall (λ b, is_Some (dict_get codes b)) data)) as [Hall|Hex].
      * rewrite Forall_forall in Hall. rewrite encode_bits_total in He; done.
      * apply not_Forall_Exists in Hex; [|apply _].
        apply Exists_exists in Hex as (b & Hin & Hb). exists b. split; [done|].
        by apply eq_None_not_Some.
    + intros (b & Hin & Hb). by eapply encode_bits_missing.
  - split.
    + intros [bits Hbits]. by eapply encode_bits_Returned_inv.
    + intros Hall. eexists. by apply encode_bits_total.
  - intros bits Hbits.
    rewrite encode_bits_total in Hbits by (by eapply encode_bits_Returned_inv).
    by simplify_eq.
Qed.

(** C9. For every bit string and every code table [huffman_decompress_bits]
    returns (it is a total function that scans the stream once) and never
    raises. The stream it consumed is a sequence of first matches: each
    emitted byte comes from the first buffer that equals a code of the
    table. The bits left in the buffer at the end of the stream match no
    code, and they are dropped without an error. *)
Theorem decoder_greedy (encoded_bits : list ascii)
    (codes : list (byte * list ascii)) :
  ∃ out ws,
    huffman_decompress_bits encoded_bits codes = Returned out ∧
    ¬ is_failure (huffman_decompress_bits encoded_bits codes) ∧
    encoded_bits = concat ws ++ final_buffer encoded_bits codes ∧
    Forall2 (first_match codes) ws out ∧
    Forall2 (λ w b, (b, w) ∈ codes) ws out ∧
    unmatched codes (final_buffer encoded_bits codes).
Proof.
  destruct (decode_loop_greedy codes encoded_bits []) as (ws & Heq & Hall & Htail).
  { intros p Hp Hpre. by apply prefix_nil_inv in Hpre. }
  eexists _, ws. split_and!; [done| |done|done| |done].
  - intros [e He]. done.
  - eapply Forall2_impl; [exact Hall|].
    intros w b (Hg & _). by apply reverse_of_Some.
Qed.

(** C10, as stated, fails for a negative deadband: with temperature 0,
    setpoint 0 and deadband -1 the temperature is above
    [setpoint + deadband], and the controller returns 100, not 0. *)
Lemma onoff_control_counterexample :
  (0 + -1 <? 0)%float = true ∧
  onoff_control 0 0 (-1) 0 = 100%Z ∧
  onoff_control 0 0 (-1) 0 ≠ 0%Z.
Proof. split_and!; [reflexivity|reflexivity|discriminate]. Qed.

(** C10, amended. [onoff_control] returns 100 if
    [temp < setpoint - deadband]; otherwise it returns 0 if
    [temp > setpoint + deadband]; otherwise it returns [last_val]
    unchanged. So if [last_val] is 0 or 100, the returned value is 0 or
    100. *)
Theorem onoff_control_cases (temp setpoint deadband : float) (last_val : Z) :
  ((temp <? setpoint - deadband)%float = true →
     onoff_control temp setpoint deadband last_val = 100%Z) ∧
  ((temp <? setpoint - deadband)%float = false →
   (setpoint + deadband <? temp)%float = true →
     onoff_control temp setpoint deadband last_val = 0%Z) ∧
  ((temp <? setpoint - deadband)%float = false →
   (setpoint + deadband <? temp)%float = false →
     onoff_control temp setpoint deadband last_val = last_val) ∧
  (last_val = 0%Z ∨ last_val = 100%Z →
     onoff_control temp setpoint deadband last_val = 0%Z ∨
     onoff_control temp setpoint deadband last_val = 100%Z).
Proof.
  unfold onoff_control.
  destruct (temp <? setpoint - deadband)%float,
    (setpoint + deadband <? temp)%float; split_and!; intros; auto; done.
Qed.

(** * Further properties of the code *)

(** ** The tree of [build_huffman_tree_from_bytes] *)

Lemma Counter_elem data b f :
  (b, f) ∈ Counter data ↔ b ∈ data ∧ f = occurrences b data.
Proof.
  pose proof (Counter_count data b) as Hc. fold (occurrences b data) in Hc.
  split.
  - intros Hin. split.
    + apply Counter_keys. by apply (list_elem_of_fmap_2 fst) in Hin.
    + apply dict_get_NoDup in Hin; [|apply Counter_NoDup].
      rewrite Hin in Hc. done.
  - intros [Hin ->]. apply dict_get_Some_elem.
    apply Counter_keys, dict_get_is_Some in Hin as [f Hf].
    rewrite Hf in Hc. simpl in Hc. by rewrite <- Hc.
Qed.

Lemma huffman_merge_left_le_right F t :
  huffman_merge F t → Forall left_le_right F → left_le_right t.
Proof.
  induction 1 as [t|F G a b F' t H1 H2 H3 H4 H5 IH]; intros Hok.
  - by inversion Hok.
  - apply IH. rewrite H4. rewrite H1 in Hok.
    apply Forall_cons in Hok as [Ha Hok]. apply Forall_cons in Hok as [Hb Hok].
    apply Forall_cons. split; [|done]. simpl. done.
Qed.

Lemma wsum_leaves t : wsum t = sum_list (leaves t).*2.
Proof.
  induction t as [b f|f l IHl r IHr]; csimpl; [lia|].
  by rewrite fmap_app, sum_list_app, IHl, IHr.
Qed.

(** X1. [build_huffman_tree_from_bytes] returns [None] exactly on the
    empty input. On any other input it returns a tree in which every
    distinct byte of the input is the symbol of exactly one leaf, whose
    frequency is the number of occurrences of the byte, and which has no
    other leaf. *)
Theorem tree_leaves_are_counts (data : list byte) :
  match build_huffman_tree_from_bytes data with
  | None => data = []
  | Some t =>
      data ≠ [] ∧ NoDup (leaves t).*1 ∧
      ∀ b f, (b, f) ∈ leaves t ↔ b ∈ data ∧ f = occurrences b data
  end.
Proof.
  destruct (decide (data = [])) as [->|Hne]; [done|].
  destruct (compress_spec data Hne) as (t & Hb & Hm & Hl & _).
  rewrite Hb. split_and!; [done|rewrite Hl; apply Counter_NoDup|].
  intros b f. rewrite Hl. apply Counter_elem.
Qed.

(** X2. In the tree that [build_huffman_tree_from_bytes] returns, the
    [freq] of every merged node is the sum of the [freq] of its two
    children, and the [freq] of the root is the length of the input. *)
Theorem tree_freq_sums (data : list byte) (t : HuffmanNode) :
  build_huffman_tree_from_bytes data = Some t →
  freq_ok t ∧ freq t = length data.
Proof.
  intros Hb.
  assert (data ≠ []) as Hne by (intros ->; done).
  destruct (compress_spec data Hne) as (t' & Hb' & Hm & Hl & _).
  rewrite Hb in Hb'. injection Hb' as <-.
  pose proof (huffman_merge_freq_ok _ _ Hm (leaf_forest_freq_ok _)) as Hok.
  split; [done|].
  by rewrite (freq_ok_wsum t Hok), wsum_leaves, Hl, Counter_total.
Qed.

Lemma tree_freq_sums_witness :
  freq_ok (Internal 6 (Leaf "a" 3) (Internal 3 (Leaf "c" 1) (Leaf "b" 2))) ∧
  freq (Internal 6 (Leaf "a" 3) (Internal 3 (Leaf "c" 1) (Leaf "b" 2)))
  = length (blit "aaabbc").
Proof. apply (tree_freq_sums (blit "aaabbc")). reflexivity. Defined.

(** X3. In the tree that [build_huffman_tree_from_bytes] returns, the left
    child of every merged node has a [freq] not above that of the right
    child: the node popped first becomes the left child. *)
Theorem tree_left_le_right (data : list byte) (t : HuffmanNode) :
  build_huffman_tree_from_bytes data = Some t → left_le_right t.
Proof.
  intros Hb.
  assert (data ≠ []) as Hne by (intros ->; done).
  destruct (build_tree_huffman data Hne) as (t' & Hb' & Hm).
  rewrite Hb in Hb'. injection Hb' as <-.
  apply (huffman_merge_left_le_right _ _ Hm).
  apply Forall_fmap, Forall_true. done.
Qed.

Lemma tree_left_le_right_witness :
  left_le_right (Internal 6 (Leaf "a" 3) (Internal 3 (Leaf "c" 1) (Leaf "b" 2))).
Proof. apply (tree_left_le_right (blit "aaabbc")). reflexivity. Defined.

(** X4. The tree that [build_huffman_tree_from_bytes] returns is a result
    of Huffman's algorithm on the leaves of the frequency table: it comes
    from the forest of these leaves by merging, step after step, two trees
    of least [freq] among those left. *)
Theorem tree_is_huffman (data : list byte) (t : HuffmanNode) :
  build_huffman_tree_from_bytes data = Some t →
  huffman_merge ((λ bf, Leaf bf.1 bf.2) <$> Counter data) t.
Proof.
  intros Hb.
  assert (data ≠ []) as Hne by (intros ->; done).
  destruct (build_tree_huffman data Hne) as (t' & Hb' & Hm).
  rewrite Hb in Hb'. by injection Hb' as <-.
Qed.

Lemma tree_is_huffman_witness :
  huffman_merge ((λ bf, Leaf bf.1 bf.2) <$> Counter (blit "aaabbc"))
    (Internal 6 (Leaf "a" 3) (Internal 3 (Leaf "c" 1) (Leaf "b" 2))).
Proof. apply (tree_is_huffman (blit "aaabbc")). reflexivity. Defined.

(** ** The table of [build_codes_from_tree] *)

Lemma paths_length_bound t b w :
  (b, w) ∈ paths t → length w + 1 ≤ length (leaves t).
Proof.
  revert w. induction t as [b' f|f l IHl r IHr]; intros w; csimpl.
  - intros Hin. apply list_elem_of_singleton in Hin. simplify_eq. simpl. lia.
  - pose proof (leaves_nonempty l) as Hl. pose proof (leaves_nonempty r) as Hr.
    rewrite length_app. intros Hin. apply elem_of_app in Hin as [Hin|Hin];
      apply list_elem_of_fmap in Hin as ([b0 w0] & [= -> ->] & Hin); simpl.
    + apply IHl in Hin. destruct (leaves r); [done|]. simpl. lia.
    + apply IHr in Hin. destruct (leaves l); [done|]. simpl. lia.
Qed.

Lemma NoDup_byte_length (l : list byte) : NoDup l → length l ≤ 256.
Proof.
  intros Hnd.
  assert (NoDup (Byte.to_nat <$> l)) as Hnat.
  { apply NoDup_fmap_2_strong; [|done]. intros x y _ _ Hxy.
    pose proof (Byte.of_to_nat x) as Hx. pose proof (Byte.of_to_nat y) as Hy.
    rewrite Hxy in Hx. congruence. }
  assert (length (Byte.to_nat <$> l) ≤ length (seq 0 256)) as Hle.
  { apply submseteq_length, NoDup_submseteq; [done|].
    intros n Hn. apply list_elem_of_fmap in Hn as (x & -> & _).
    apply elem_of_seq. pose proof (Byte.to_nat_bounded x). lia. }
  by rewrite length_fmap, length_seq in Hle.
Qed.

(** X5. Every code word of the table that [build_codes_from_tree] makes
    from the tree of [build_huffman_tree_from_bytes] is a string of the
    characters "0" and "1" of length 1 to 255; with [n] distinct bytes in
    the input, [n] at least 2, no code word is longer than [n - 1]. *)
Theorem code_words_shape (data : list byte) (b : byte) (w : list ascii) :
  dict_get (build_codes_from_tree (build_huffman_tree_from_bytes data)) b
  = Some w →
  binary w ∧ 1 ≤ length w ∧ length w ≤ 255 ∧
  length w ≤ Nat.max 1 (length (Counter data) - 1).
Proof.
  destruct (decide (data = [])) as [->|Hne]; [done|].
  destruct (compress_spec data Hne) as (t & Hb & Hm & Hl & Hc & _).
  rewrite Hb, Hc. intros Hw. apply dict_get_Some_elem in Hw.
  pose proof (code_table_nonempty _ _ _ Hw) as Hnon.
  pose proof (code_table_binary _ _ _ Hw) as Hbin.
  assert (length (Counter data) ≤ 256) as H256.
  { rewrite <- (length_fmap fst). apply NoDup_byte_length, Counter_NoDup. }
  assert (length w ≤ Nat.max 1 (length (Counter data) - 1)) as Hlen.
  { destruct t as [b' f|f l r].
    - rewrite code_table_leaf in Hw. apply list_elem_of_singleton in Hw.
      simplify_eq. simpl. lia.
    - rewrite code_table_internal in Hw. apply paths_length_bound in Hw.
      rewrite Hl in Hw. lia. }
  split_and!; [done| |lia|done].
  destruct w; [done|]. simpl. lia.
Qed.

Lemma code_words_shape_witness :
  binary (lit "10") ∧ 1 ≤ length (lit "10") ∧ length (lit "10") ≤ 255 ∧
  length (lit "10") ≤ Nat.max 1 (length (Counter (blit "aaabbc")) - 1).
Proof. apply (code_words_shape (blit "aaabbc") "c"%byte). reflexivity. Defined.

(** X6. For a tree whose leaves hold pairwise distinct symbols,
    [build_codes_from_tree] returns one entry per leaf, in the order of the
    leaves from left to right, with the path from the root to the leaf as
    code ("0" for a left branch, "1" for a right one), and "0" when the
    root itself is the leaf. *)
Theorem codes_are_paths (t : HuffmanNode) :
  NoDup (leaves t).*1 →
  build_codes_from_tree (Some t) = (λ bw, (bw.1, or_zero bw.2)) <$> paths t.
Proof. intros Hnd. by rewrite build_codes_code_table. Qed.

Lemma codes_are_paths_witness :
  build_codes_from_tree
    (Some (Internal 6 (Leaf "a" 3) (Internal 3 (Leaf "c" 1) (Leaf "b" 2))))
  = (λ bw, (bw.1, or_zero bw.2))
    <$> paths (Internal 6 (Leaf "a" 3) (Internal 3 (Leaf "c" 1) (Leaf "b" 2))).
Proof.
  apply (codes_are_paths
           (Internal 6 (Leaf "a" 3) (Internal 3 (Leaf "c" 1) (Leaf "b" 2)))).
  simpl. repeat (apply NoDup_cons; split; [by intros Hin; apply list_elem_of_In in Hin; simpl in Hin; intuition discriminate|]).
  apply NoDup_nil_2.
Defined.

(** ** [huffman_compress_bytes] *)

Lemma bits8_length b : length (bits8 b) = 8.
Proof. unfold bits8. by destruct (to_bits b) as (?&?&?&?&?&?&?&?). Qed.

Lemma bits8_binary b : binary (bits8 b).
Proof.
  unfold bits8. destruct (to_bits b) as (b0&b1&b2&b3&b4&b5&b6&b7). csimpl.
  repeat (apply Forall_cons; split;
    [match goal with |- is_bit (bit_char ?x) => destruct x; [by right|by left] end|]).
  apply Forall_nil_2.
Qed.

Lemma bit_char_inj x y : bit_char x = bit_char y → x = y.
Proof. by destruct x, y. Qed.

Lemma bits8_inj a b : bits8 a = bits8 b → a = b.
Proof.
  unfold bits8. intros Heq.
  rewrite <- (Byte.of_bits_to_bits a), <- (Byte.of_bits_to_bits b).
  destruct (to_bits a) as (a0&a1&a2&a3&a4&a5&a6&a7).
  destruct (to_bits b) as (b0&b1&b2&b3&b4&b5&b6&b7).
  csimpl in Heq. injection Heq as H7 H6 H5 H4 H3 H2 H1 H0.
  apply bit_char_inj in H0, H1, H2, H3, H4, H5, H6, H7. by subst.
Qed.

(** The code that stores every byte of a frequency table on eight bits. *)
Lemma fixed_code freqs :
  NoDup freqs.*1 →
  prefix_code freqs ((λ bf, (bf.1, bits8 bf.1)) <$> freqs) ∧
  weighted_cost freqs ((λ bf, (bf.1, bits8 bf.1)) <$> freqs)
  = 8 * sum_list freqs.*2.
Proof.
  intros Hnd. set (fixed := (λ bf, (bf.1, bits8 bf.1)) <$> freqs).
  assert (fixed.*1 = freqs.*1) as Hkeys.
  { unfold fixed. by rewrite <- list_fmap_compose. }
  assert (∀ b, b ∈ freqs.*1 → dict_get fixed b = Some (bits8 b)) as Hget.
  { intros b Hb. apply dict_get_NoDup; [by rewrite Hkeys|].
    apply list_elem_of_fmap in Hb as ([b' f] & -> & Hin).
    apply list_elem_of_fmap. by exists (b', f). }
  split; [split|].
  - intros b Hb. exists (bits8 b). split_and!; [by apply Hget| |apply bits8_binary].
    intros Hnil. pose proof (bits8_length b) as Hl. rewrite Hnil in Hl. done.
  - intros a b wa wb Ha Hb Hab Hwa Hwb Hpre.
    rewrite (Hget a Ha) in Hwa. rewrite (Hget b Hb) in Hwb. simplify_eq.
    apply Hab, bits8_inj, prefix_length_eq; [done|].
    by rewrite !bits8_length.
  - unfold weighted_cost.
    assert (∀ l : list (byte * nat), (∀ x, x ∈ l.*1 → x ∈ freqs.*1) →
      sum_list ((λ bf, bf.2 * code_len fixed bf.1) <$> l) = 8 * sum_list l.*2)
      as Hgen.
    { induction l as [|[b f] l IH]; intros Hsub; csimpl; [lia|].
      rewrite IH by (intros x Hx; apply Hsub; by right).
      unfold code_len. rewrite Hget by (apply Hsub; left). simpl.
      rewrite bits8_length. lia. }
    by apply Hgen.
Qed.

Lemma binary_concat_codes (codes : list (byte * list ascii)) data :
  (∀ b w, (b, w) ∈ codes → binary w) →
  binary (concat ((λ b, default [] (dict_get codes b)) <$> data)).
Proof.
  intros Hbin. apply Forall_concat, Forall_fmap, Forall_forall.
  intros b _. simpl. destruct (dict_get codes b) as [w|] eqn:Hw; simpl.
  - apply (Hbin b). by apply dict_get_Some_elem.
  - constructor.
Qed.

(** X7. For every input [huffman_compress_bytes] returns; the table it
    returns has exactly the distinct bytes of the input as keys, each
    once, and the bit stream is the concatenation, in input order, of the
    codes of the input bytes, a string of the characters "0" and "1". *)
Theorem compress_output (data : list byte) :
  ∃ bits codes,
    huffman_compress_bytes data = Returned (bits, codes) ∧
    NoDup codes.*1 ∧ (∀ b, b ∈ codes.*1 ↔ b ∈ data) ∧
    bits = concat ((λ b, default [] (dict_get codes b)) <$> data) ∧
    binary bits.
Proof.
  destruct (decide (data = [])) as [->|Hne].
  { exists [], []. split_and!; [done|apply NoDup_nil_2|done|done|constructor]. }
  destruct (compress_spec data Hne) as (t & Hb & Hm & Hl & Hc & Hall & Hcomp).
  eexists _, _. split; [exact Hcomp|]. split_and!.
  - rewrite code_table_keys, Hl. apply Counter_NoDup.
  - intros b. rewrite code_table_keys, Hl. apply Counter_keys.
  - done.
  - apply binary_concat_codes. intros b w. apply code_table_binary.
Qed.

Lemma sum_code_len_lower codes (data : list byte) :
  (∀ b, b ∈ data → 1 ≤ code_len codes b) →
  length data ≤ sum_list (code_len codes <$> data).
Proof.
  induction data as [|b data IH]; intros Hall; csimpl; [lia|].
  pose proof (Hall b ltac:(left)).
  assert (length data ≤ sum_list (code_len codes <$> data)); [|lia].
  apply IH. intros x Hx. apply Hall. by right.
Qed.

(** What [huffman_compress_bytes] returns decodes to the input and takes
    between one and eight bits per input byte. *)
Lemma compress_returns (data : list byte) :
  ∃ bits codes,
    huffman_compress_bytes data = Returned (bits, codes) ∧
    huffman_decompress_bits bits codes = Returned data ∧
    length data ≤ length bits ∧ length bits ≤ 8 * length data.
Proof.
  destruct (decide (data = [])) as [->|Hne].
  { exists [], []. simpl. split_and!; [done|done|lia|lia]. }
  destruct (compress_spec data Hne) as (t & Hb & Hm & Hl & Hc & Hall & Hcomp).
  assert (∀ b, b ∈ data → ∃ w, dict_get (code_table t) b = Some w ∧ w ≠ [])
    as Hcodes.
  { intros b Hin. destruct (Hall b Hin) as [w Hw]. exists w. split; [done|].
    eapply code_table_nonempty. by apply dict_get_Some_elem. }
  eexists _, _. split; [exact Hcomp|]. split.
  { unfold huffman_decompress_bits. f_equal.
    by rewrite decode_loop_roundtrip; [|apply pfree_code_table|]. }
  rewrite length_concat_codes. split.
  - apply sum_code_len_lower. intros b Hin. destruct (Hcodes b Hin) as (w & Hw & Hnon).
    unfold code_len. rewrite Hw. simpl. destruct w; [done|simpl; lia].
  - rewrite <- weighted_cost_Counter.
    destruct (fixed_code (Counter data) (Counter_NoDup data)) as [Hpc Hcost].
    destruct (huffman_table_optimal _ t _ (Counter_NoDup data) Hm Hpc) as [_ Hle].
    rewrite Hcost, Counter_total in Hle. done.
Qed.

(** X8. The bit stream that [huffman_compress_bytes] returns has at least
    one bit and at most eight bits per input byte: encoding never takes
    more bits than the input itself. *)
Theorem compress_length_bounds (data : list byte) :
  ∃ bits codes,
    huffman_compress_bytes data = Returned (bits, codes) ∧
    length data ≤ length bits ∧ length bits ≤ 8 * length data.
Proof.
  destruct (compress_returns data) as (bits & codes & Hc & _ & Hlo & Hhi).
  by exists bits, codes.
Qed.

(** X9. The table that [huffman_compress_bytes] returns for an input
    encodes every byte sequence over the bytes of that input, and
    [huffman_decompress_bits] with the same table gives the sequence
    back. *)
Theorem table_roundtrip_on_alphabet (data other : list byte) :
  (∀ b, b ∈ other → b ∈ data) →
  ∃ bits codes bits',
    huffman_compress_bytes data = Returned (bits, codes) ∧
    encode_bits codes other = Returned bits' ∧
    huffman_decompress_bits bits' codes = Returned other.
Proof.
  intros Hsub. destruct (decide (data = [])) as [->|Hne].
  { destruct other as [|b other].
    - by exists [], [], [].
    - specialize (Hsub b ltac:(left)). by apply elem_of_nil in Hsub. }
  destruct (compress_spec data Hne) as (t & Hb & Hm & Hl & Hc & Hall & Hcomp).
  eexists _, _, _. split; [exact Hcomp|]. split.
  - apply encode_bits_total. intros b Hin. by apply Hall, Hsub.
  - unfold huffman_decompress_bits. f_equal.
    rewrite decode_loop_roundtrip; [done|apply pfree_code_table|].
    intros b Hin. destruct (Hall b (Hsub b Hin)) as [w Hw]. exists w. split; [done|].
    eapply code_table_nonempty. by apply dict_get_Some_elem.
Qed.

Lemma table_roundtrip_on_alphabet_witness :
  ∃ bits codes bits',
    huffman_compress_bytes (blit "aaabbc") = Returned (bits, codes) ∧
    encode_bits codes (blit "cab") = Returned bits' ∧
    huffman_decompress_bits bits' codes = Returned (blit "cab").
Proof.
  apply (table_roundtrip_on_alphabet (blit "aaabbc") (blit "cab")).
  intros b Hb. apply list_elem_of_In in Hb. apply list_elem_of_In.
  simpl in *. intuition.
Defined.

(** ** The encoding step *)

(** X10. The encoding step distributes over concatenation: the bits of
    [d1 ++ d2] are the bits of [d1] followed by the bits of [d2], and the
    error of [d1], or else that of [d2], is the error of the whole. *)
Theorem encode_bits_app (codes : list (byte * list ascii)) (d1 d2 : list byte) :
  encode_bits codes (d1 ++ d2)
  = bind (encode_bits codes d1) (λ bits1,
    bind (encode_bits codes d2) (λ bits2, Returned (bits1 ++ bits2))).
Proof.
  induction d1 as [|b d1 IH]; simpl.
  - by destruct (encode_bits codes d2).
  - destruct (dict_get codes b) as [w|]; [|done].
    rewrite IH. destruct (encode_bits codes d1) as [bits1|e]; simpl; [|done].
    destruct (encode_bits codes d2) as [bits2|e]; simpl; [|done].
    by rewrite app_assoc.
Qed.

(** X11. When a byte of the input has no entry in the table, the
    [KeyError] of the encoding step carries the first such byte of the
    input. *)
Theorem encode_bits_first_missing (codes : list (byte * list ascii))
    (d1 d2 : list byte) (b : byte) :
  (∀ x, x ∈ d1 → is_Some (dict_get codes x)) →
  dict_get codes b = None →
  encode_bits codes (d1 ++ b :: d2) = Raised (KeyError b).
Proof.
  intros Hall Hb. induction d1 as [|x d1 IH]; simpl.
  - by rewrite Hb.
  - destruct (Hall x) as [w Hw]; [left|]. rewrite Hw, IH; [done|].
    intros y Hy. apply Hall. by right.
Qed.

Lemma encode_bits_first_missing_witness :
  encode_bits [("a"%byte, lit "0"); ("b"%byte, lit "1")]
    (blit "ab" ++ "x"%byte :: blit "ya")
  = Raised (KeyError "x").
Proof.
  apply (encode_bits_first_missing
           [("a"%byte, lit "0"); ("b"%byte, lit "1")] (blit "ab") (blit "ya")).
  - intros x Hx. apply list_elem_of_In in Hx. simpl in Hx.
    destruct Hx as [<-|[<-|[]]]; by eexists.
  - reflexivity.
Defined.

(** ** [huffman_decompress_bits] *)

Lemma decode_loop_app rm s1 s2 cur acc :
  decode_loop rm (s1 ++ s2) cur acc
  = decode_loop rm s2 (decode_loop rm s1 cur acc).2 (decode_loop rm s1 cur acc).1.
Proof.
  revert cur acc. induction s1 as [|bit s1 IH]; intros cur acc; simpl; [done|].
  destruct (dict_get rm (cur ++ [bit])); apply IH.
Qed.

(** X12. Decoding distributes over concatenation at a code boundary: when
    decoding [s1] ends with an empty buffer, the bytes of [s1 ++ s2] are
    the bytes of [s1] followed by the bytes of [s2]. *)
Theorem decoder_app (codes : list (byte * list ascii)) (s1 s2 : list ascii) :
  final_buffer s1 codes = [] →
  huffman_decompress_bits (s1 ++ s2) codes
  = bind (huffman_decompress_bits s1 codes) (λ out1,
    bind (huffman_decompress_bits s2 codes) (λ out2, Returned (out1 ++ out2))).
Proof.
  unfold final_buffer, huffman_decompress_bits. intros Hbuf. simpl.
  rewrite decode_loop_app, Hbuf. by rewrite decode_loop_acc.
Qed.

Lemma decoder_app_witness :
  huffman_decompress_bits (lit "010" ++ lit "110")
    [("a"%byte, lit "0"); ("b"%byte, lit "10"); ("c"%byte, lit "11")]
  = bind (huffman_decompress_bits (lit "010")
            [("a"%byte, lit "0"); ("b"%byte, lit "10"); ("c"%byte, lit "11")])
      (λ out1,
    bind (huffman_decompress_bits (lit "110")
            [("a"%byte, lit "0"); ("b"%byte, lit "10"); ("c"%byte, lit "11")])
      (λ out2, Returned (out1 ++ out2))).
Proof.
  apply (decoder_app
           [("a"%byte, lit "0"); ("b"%byte, lit "10"); ("c"%byte, lit "11")]
           (lit "010") (lit "110")).
  reflexivity.
Defined.

Lemma decode_loop_bound codes bits cur acc :
  length (decode_loop (reverse_of codes) bits cur acc).1
    + length (decode_loop (reverse_of codes) bits cur acc).2
  ≤ length acc + length cur + length bits ∧
  ∀ b, b ∈ (decode_loop (reverse_of codes) bits cur acc).1 →
       b ∈ acc ∨ b ∈ codes.*1.
Proof.
  revert cur acc. induction bits as [|bit bits IH]; intros cur acc; simpl.
  - split; [lia|auto].
  - destruct (dict_get (reverse_of codes) (cur ++ [bit])) as [b0|] eqn:Hg.
    + destruct (IH [] (acc ++ [b0])) as [Hlen Hin]. split.
      * rewrite length_app in Hlen. simpl in Hlen. lia.
      * intros b Hb. apply Hin in Hb as [Hb|Hb]; [|by right].
        apply elem_of_app in Hb as [Hb|Hb]; [by left|].
        apply list_elem_of_singleton in Hb as ->. right.
        apply reverse_of_Some in Hg. by apply (list_elem_of_fmap_2 fst) in Hg.
    + destruct (IH (cur ++ [bit]) acc) as [Hlen Hin]. split; [|done].
      rewrite length_app in Hlen. simpl in Hlen. lia.
Qed.

(** X13. Every byte that [huffman_decompress_bits] returns is a key of the
    table, and the bytes returned and the bits left in the buffer are
    together no more than the bits of the stream: each byte takes at
    least one bit. With an empty table the result is empty. *)
Theorem decoder_output_bounded (encoded_bits : list ascii)
    (codes : list (byte * list ascii)) :
  ∃ out,
    huffman_decompress_bits encoded_bits codes = Returned out ∧
    length out + length (final_buffer encoded_bits codes) ≤ length encoded_bits ∧
    (∀ b, b ∈ out → b ∈ codes.*1) ∧
    (codes = [] → out = []).
Proof.
  eexists. split; [done|].
  destruct (decode_loop_bound codes encoded_bits [] []) as [Hlen Hin].
  assert (∀ b, b ∈ (decode_loop (reverse_of codes) encoded_bits [] []).1
               → b ∈ codes.*1) as Hkeys.
  { intros b Hb. apply Hin in Hb as [Hb|Hb]; [by apply elem_of_nil in Hb|done]. }
  split_and!; [simpl in Hlen; unfold final_buffer; lia|done|].
  intros ->. destruct (decode_loop (reverse_of []) encoded_bits [] []).1
    as [|b out] eqn:Hout; [done|].
  specialize (Hkeys b ltac:(left)). by apply elem_of_nil in Hkeys.
Qed.

(** Every binary word runs through the tree: a path is a prefix of it, or
    it stops inside the tree, a proper prefix of a path. *)
Lemma paths_complete t w :
  binary w →
  (∃ p, p ∈ (paths t).*2 ∧ p `prefix_of` w) ∨
  (∃ p, p ∈ (paths t).*2 ∧ w `prefix_of` p ∧ w ≠ p).
Proof.
  revert w. induction t as [b f|f l IHl r IHr]; intros w Hw.
  - left. exists []. split; [csimpl; left|apply prefix_nil].
  - destruct w as [|c w].
    + right. destruct (paths (Internal f l r)) as [|[b p] ps] eqn:Hp.
      { pose proof (leaves_nonempty (Internal f l r)) as Hne.
        apply (f_equal (fmap fst)) in Hp. rewrite paths_keys in Hp.
        by apply fmap_nil_inv in Hp. }
      exists p. split_and!; [csimpl; left|apply prefix_nil|].
      intros <-. eapply (paths_internal_nonempty f l r b); [|done].
      rewrite Hp. left.
    + apply Forall_cons in Hw as [Hc Hw].
      assert (∀ t' (c : ascii),
        ((∃ p, p ∈ (paths t').*2 ∧ p `prefix_of` w) ∨
         (∃ p, p ∈ (paths t').*2 ∧ w `prefix_of` p ∧ w ≠ p)) →
        (∃ p, p ∈ ((λ bw, (bw.1, c :: bw.2)) <$> paths t').*2
              ∧ p `prefix_of` c :: w) ∨
        (∃ p, p ∈ ((λ bw, (bw.1, c :: bw.2)) <$> paths t').*2
              ∧ (c :: w) `prefix_of` p ∧ c :: w ≠ p)) as Hlift.
      { intros t' c' [(p & Hp & Hpre)|(p & Hp & Hpre & Hne)].
        - left. exists (c' :: p). split; [|by apply prefix_cons].
          apply list_elem_of_fmap in Hp as ([b0 p0] & -> & Hin).
          apply list_elem_of_fmap. exists (b0, c' :: p0). split; [done|].
          apply list_elem_of_fmap. by exists (b0, p0).
        - right. exists (c' :: p). split_and!; [|by apply prefix_cons|congruence].
          apply list_elem_of_fmap in Hp as ([b0 p0] & -> & Hin).
          apply list_elem_of_fmap. exists (b0, c' :: p0). split; [done|].
          apply list_elem_of_fmap. by exists (b0, p0). }
      csimpl. rewrite fmap_app.
      destruct Hc as [-> | ->].
      * destruct (Hlift l "0"%char (IHl w Hw)) as [(p & Hp & H1)|(p & Hp & H1 & H2)];
          [left|right]; exists p; rewrite elem_of_app; auto.
      * destruct (Hlift r "1"%char (IHr w Hw)) as [(p & Hp & H1)|(p & Hp & H1 & H2)];
          [left|right]; exists p; rewrite elem_of_app; auto.
Qed.

(** X14. With the table that [huffman_compress_bytes] returns for an input
    of two distinct bytes or more, every stream of the characters "0" and
    "1" is decoded up to a proper prefix of a code word: the bits dropped
    at the end are fewer than the length of some code. *)
Theorem decoder_tail_inside_code (data : list byte) (a b : byte)
    (encoded_bits : list ascii) :
  a ∈ data → b ∈ data → a ≠ b → binary encoded_bits →
  ∃ bits codes x w,
    huffman_compress_bytes data = Returned (bits, codes) ∧
    dict_get codes x = Some w ∧
    final_buffer encoded_bits codes `prefix_of` w ∧
    length (final_buffer encoded_bits codes) < length w.
Proof.
  intros Ha Hb Hab Hbin.
  assert (data ≠ []) as Hne by (intros ->; by apply elem_of_nil in Ha).
  destruct (compress_spec data Hne) as (t & Hbt & Hm & Hl & Hc & Hall & Hcomp).
  assert (NoDup (code_table t).*1) as Hnd.
  { rewrite code_table_keys, Hl. apply Counter_NoDup. }
  destruct t as [x f|f l r].
  { apply Permutation_singleton_l in Hl.
    assert (∀ y, y ∈ data → y = x) as Hx.
    { intros y Hy. apply Counter_keys in Hy. rewrite <- Hl in Hy.
      csimpl in Hy. by apply list_elem_of_singleton in Hy. }
    destruct Hab. by rewrite (Hx a Ha), (Hx b Hb). }
  rewrite code_table_internal in Hnd, Hcomp.
  destruct (decode_loop_greedy (paths (Internal f l r)) encoded_bits [])
    as (ws & Heq & _ & Htail).
  { intros p Hp Hpre. by apply prefix_nil_inv in Hpre. }
  fold (final_buffer encoded_bits (paths (Internal f l r))) in Heq, Htail.
  set (tail := final_buffer encoded_bits (paths (Internal f l r))) in *.
  assert (binary tail) as Hbt'.
  { unfold binary in Hbin. rewrite app_nil_l in Heq. rewrite Heq in Hbin.
    by apply Forall_app in Hbin as [_ ?]. }
  destruct (paths_complete (Internal f l r) tail Hbt')
    as [(p & Hp & Hpre)|(p & Hp & Hpre & Hneq)].
  - destruct (Htail p); [|done|done].
    apply list_elem_of_fmap in Hp as ([x q] & -> & Hin).
    by eapply paths_internal_nonempty.
  - apply list_elem_of_fmap in Hp as ([x q] & -> & Hin).
    cbn [snd] in Hpre, Hneq.
    exists (concat ((λ b0, default [] (dict_get (paths (Internal f l r)) b0)) <$> data)),
      (paths (Internal f l r)), x, q.
    split; [exact Hcomp|].
    split_and!; [by apply dict_get_NoDup|exact Hpre|].
    pose proof (prefix_length _ _ Hpre) as Hle.
    destruct (decide (length tail = length q)) as [Heql|?].
    2:{ change (length tail < length q). lia. }
    destruct Hneq. apply prefix_length_eq; [done|]. lia.
Qed.

Lemma decoder_tail_inside_code_witness :
  ∃ bits codes x w,
    huffman_compress_bytes (blit "aaabbc") = Returned (bits, codes) ∧
    dict_get codes x = Some w ∧
    final_buffer (lit "0101") codes `prefix_of` w ∧
    length (final_buffer (lit "0101") codes) < length w.
Proof.
  apply (decoder_tail_inside_code (blit "aaabbc") "a"%byte "b"%byte (lit "0101")).
  - left.
  - do 3 right. left.
  - discriminate.
  - repeat (apply Forall_cons; split; [by (left + right)|]). apply Forall_nil_2.
Defined.

Lemma reverse_fold_absent codes m w :
  w ∉ codes.*2 → dict_get (foldl rev_step m codes) w = dict_get m w.
Proof.
  revert m. induction codes as [|[k v] codes IH]; intros m Hw; csimpl in *; [done|].
  apply not_elem_of_cons in Hw as [Hne Hw].
  rewrite IH by done. unfold rev_step. rewrite dict_get_set. simpl.
  by rewrite decide_False.
Qed.

(** X15. When several symbols of a table share a code word, the decoder
    emits the symbol that comes last in the table for it: the reverse map
    keeps the last key of each code. *)
Theorem decoder_last_symbol_wins (c1 c2 : list (byte * list ascii))
    (b : byte) (w : list ascii) :
  w ≠ [] → w ∉ c2.*2 →
  (∀ p, p ≠ [] → p `prefix_of` w → p ≠ w → p ∉ (c1 ++ (b, w) :: c2).*2) →
  huffman_decompress_bits w (c1 ++ (b, w) :: c2) = Returned [b].
Proof.
  intros Hne Hw Hfirst.
  assert (first_match (c1 ++ (b, w) :: c2) w b) as Hm.
  { split_and!; [|done|done].
    unfold reverse_of. rewrite foldl_app. simpl.
    rewrite reverse_fold_absent by done.
    unfold rev_step at 1. rewrite dict_get_set. simpl. by rewrite decide_True. }
  pose proof (decode_loop_first_match _ b w [] [] Hm) as Hd.
  rewrite app_nil_r in Hd. unfold huffman_decompress_bits. by rewrite Hd.
Qed.

Lemma decoder_last_symbol_wins_witness :
  huffman_decompress_bits (lit "10")
    ([("a"%byte, lit "10")] ++ ("b"%byte, lit "10") :: [("c"%byte, lit "11")])
  = Returned [ "b"%byte ].
Proof.
  apply (decoder_last_symbol_wins [("a"%byte, lit "10")] [("c"%byte, lit "11")]).
  - discriminate.
  - intros Hin. apply list_elem_of_In in Hin. simpl in Hin.
    destruct Hin as [Hin|[]]. discriminate Hin.
  - intros p Hp Hpre Hneq Hin. apply list_elem_of_In in Hin. simpl in Hin.
    destruct Hin as [<-|[<-|[<-|[]]]]; try done.
    destruct Hpre as [k Hk]. discriminate Hk.
Defined.

(** ** [compress_decompress_cached] and the integrity test *)

(** X16. [compress_decompress_cached] returns for every input, with the
    stream and table of [huffman_compress_bytes] and with decoded bytes
    equal to the input: the test [decoded_bytes != file_bytes] that guards
    the warning is never true. *)
Theorem cached_roundtrip (file_bytes : list byte) :
  ∃ info,
    compress_decompress_cached file_bytes = Returned info ∧
    huffman_compress_bytes file_bytes
    = Returned (info_encoded_bits info, info_codes_map info) ∧
    info_decoded_bytes info = file_bytes ∧
    integrity_warning file_bytes = Returned false.
Proof.
  destruct (compress_returns file_bytes) as (bits & codes & Hc & Hd & _).
  unfold integrity_warning, compress_decompress_cached.
  rewrite Hc. cbn [bind fst snd]. rewrite Hd. cbn [bind].
  eexists. split_and!; [done..|]. cbn [info_decoded_bytes].
  f_equal. apply bool_decide_eq_false. by intros Hne.
Qed.

(** X17. The size estimate of [compress_decompress_cached] is the number
    of bits rounded up to whole bytes, and it is never above the size of
    the input. *)
Theorem cached_size_estimate (file_bytes : list byte) :
  ∃ info,
    compress_decompress_cached file_bytes = Returned info ∧
    length (info_encoded_bits info) ≤ 8 * info_compressed_bytes_est info ∧
    8 * info_compressed_bytes_est info < length (info_encoded_bits info) + 8 ∧
    info_compressed_bytes_est info ≤ length file_bytes.
Proof.
  destruct (compress_returns file_bytes) as (bits & codes & Hc & Hd & _ & Hhi).
  unfold compress_decompress_cached.
  rewrite Hc. cbn [bind fst snd]. rewrite Hd. cbn [bind].
  eexists. split; [done|]. cbn [info_encoded_bits info_compressed_bytes_est].
  split_and!; lia.
Qed.

(** ** [onoff_control] and the loop of [main] *)

(** X18. The setpoints of the loop take two values each, [SP1] 25 or 30
    and [SP2] always 2 below [SP1]; they are 25 and 23 in the first twelve
    hours of every day of simulated time and 30 and 28 in the last twelve,
    so they switch every 43200 seconds and repeat every 86400. *)
Theorem setpoint_schedule (t : Z) :
  ((sp1_at t = 25 ∨ sp1_at t = 30) ∧
   sp2_at t = sp1_at t - 2 ∧
   (sp1_at t = 25 ↔ t mod 86400 < 43200) ∧
   sp1_at (t + 43200) = 55 - sp1_at t ∧
   sp1_at (t + 86400) = sp1_at t)%Z.
Proof. unfold sp1_at, sp2_at. split_and!; lia. Qed.

Lemma ltb_nan_l (x : float) : (nan <? x)%float = false.
Proof. rewrite ltb_spec. by destruct (Prim2SF x). Qed.

Lemma ltb_nan_r (x : float) : (x <? nan)%float = false.
Proof. rewrite ltb_spec. by destruct (Prim2SF x) as [| | |[] ? ?]. Qed.

Lemma Prim2SF_nan_inv (x : float) : Prim2SF x = S754_nan → x = nan.
Proof. intros Hx. rewrite <- (SF2Prim_Prim2SF x), Hx. reflexivity. Qed.

Lemma sub_nan_r (x : float) : (x - nan)%float = nan.
Proof.
  apply Prim2SF_nan_inv. rewrite sub_spec.
  change (Prim2SF nan) with S754_nan. by destruct (Prim2SF x) as [[]|[]| |[] ? ?].
Qed.

Lemma sub_nan_l (x : float) : (nan - x)%float = nan.
Proof.
  apply Prim2SF_nan_inv. rewrite sub_spec.
  change (Prim2SF nan) with S754_nan. by destruct (Prim2SF x) as [[]|[]| |[] ? ?].
Qed.

Lemma add_nan_r (x : float) : (x + nan)%float = nan.
Proof.
  apply Prim2SF_nan_inv. rewrite add_spec.
  change (Prim2SF nan) with S754_nan. by destruct (Prim2SF x) as [[]|[]| |[] ? ?].
Qed.

Lemma add_nan_l (x : float) : (nan + x)%float = nan.
Proof.
  apply Prim2SF_nan_inv. rewrite add_spec.
  change (Prim2SF nan) with S754_nan. by destruct (Prim2SF x) as [[]|[]| |[] ? ?].
Qed.

(** X19. When the temperature, the setpoint or the deadband is NaN, both
    comparisons of [onoff_control] are false and it returns [last_val]:
    the output holds. *)
Theorem onoff_control_nan (temp setpoint deadband : float) (last_val : Z) :
  onoff_control nan setpoint deadband last_val = last_val ∧
  onoff_control temp nan deadband last_val = last_val ∧
  onoff_control temp setpoint nan last_val = last_val.
Proof.
  unfold onoff_control. split_and!.
  - by rewrite ltb_nan_l, ltb_nan_r.
  - by rewrite sub_nan_l, add_nan_l, ltb_nan_l, ltb_nan_r.
  - by rewrite sub_nan_r, add_nan_r, ltb_nan_l, ltb_nan_r.
Qed.

Lemma onoff_control_range temp setpoint deadband last_val :
  (last_val = 0 ∨ last_val = 100)%Z →
  (onoff_control temp setpoint deadband last_val = 0 ∨
   onoff_control temp setpoint deadband last_val = 100)%Z.
Proof.
  unfold onoff_control. intros Hl.
  destruct (temp <? setpoint - deadband)%float; [by right|].
  destruct (setpoint + deadband <? temp)%float; [by left|done].
Qed.

(** The output switches only when the temperature is outside the band. *)
Lemma onoff_control_switch temp setpoint deadband last_val :
  onoff_control temp setpoint deadband last_val ≠ last_val →
  (onoff_control temp setpoint deadband last_val = 100%Z ∧
   (temp <? setpoint - deadband)%float = true) ∨
  (onoff_control temp setpoint deadband last_val = 0%Z ∧
   (setpoint + deadband <? temp)%float = true).
Proof.
  unfold onoff_control.
  destruct (temp <? setpoint - deadband)%float; [by left|].
  destruct (setpoint + deadband <? temp)%float; [by right|done].
Qed.

Lemma controlled_range deadband last_q1 last_q2 rows :
  (last_q1 = 0 ∨ last_q1 = 100)%Z → (last_q2 = 0 ∨ last_q2 = 100)%Z →
  controlled deadband last_q1 last_q2 rows →
  Forall (λ r, (Q1 r = 0 ∨ Q1 r = 100) ∧ (Q2 r = 0 ∨ Q2 r = 100))%Z rows.
Proof.
  revert last_q1 last_q2. induction rows as [|r rows IH];
    intros l1 l2 H1 H2; simpl; [constructor|].
  intros (Hq1 & Hq2 & Hrest).
  assert (Q1 r = 0 ∨ Q1 r = 100)%Z as Hr1
    by (rewrite Hq1; by apply onoff_control_range).
  assert (Q2 r = 0 ∨ Q2 r = 100)%Z as Hr2
    by (rewrite Hq2; by apply onoff_control_range).
  constructor; [done|]. by apply (IH (Q1 r) (Q2 r)).
Qed.

Lemma controlled_lookup deadband rows i r :
  controlled deadband 0%Z 0%Z rows → rows !! i = Some r →
  Q1 r = onoff_control (T1 r) (int_to_float (SP1 r)) deadband (q1_before rows i) ∧
  Q2 r = onoff_control (T2 r) (int_to_float (SP2 r)) deadband (q2_before rows i).
Proof.
  assert (∀ l1 l2 rows i r,
    controlled deadband l1 l2 rows → rows !! i = Some r →
    Q1 r = onoff_control (T1 r) (int_to_float (SP1 r)) deadband
             (match i with 0 => l1 | S j => from_option Q1 0%Z (rows !! j) end) ∧
    Q2 r = onoff_control (T2 r) (int_to_float (SP2 r)) deadband
             (match i with 0 => l2 | S j => from_option Q2 0%Z (rows !! j) end))
    as Hgen.
  { clear. intros l1 l2 rows. revert l1 l2.
    induction rows as [|r0 rows IH]; intros l1 l2 i r; [done|].
    simpl. intros (Hq1 & Hq2 & Hrest) Hi. destruct i as [|i].
    - simpl in Hi. by simplify_eq.
    - simpl in Hi. destruct (IH _ _ _ _ Hrest Hi) as [H1 H2].
      destruct i as [|i]; simpl in *; done. }
  apply Hgen.
Qed.

Section tclab_facts.
Context {lab : Type}.
Context (TCLab : lab → call_result lab unit).
Context (read_T1 read_T2 : lab → call_result lab float).
Context (set_Q1 set_Q2 : lab → Z → call_result lab unit).
Context (sleep : float → lab → call_result lab unit).
Context (close : lab → call_result lab unit).

(** The loop appends rows for an initial segment of the values of [t]; for
    all of them when it runs out, and for one at most when [time.sleep]
    raises. *)
Lemma control_loop_spec sleep_real deadband ts st last_q1 last_q2 rows :
  ∃ new,
    (control_loop read_T1 read_T2 set_Q1 set_Q2 sleep sleep_real deadband
       ts st last_q1 last_q2 rows).2 = rows ++ new ∧
    time_s <$> new = take (length new) ts ∧
    length new ≤ length ts ∧
    Forall (λ r, SP1 r = sp1_at (time_s r) ∧ SP2 r = sp2_at (time_s r)) new ∧
    controlled deadband last_q1 last_q2 new ∧
    (returns (control_loop read_T1 read_T2 set_Q1 set_Q2 sleep sleep_real
                deadband ts st last_q1 last_q2 rows).1 →
     length new = length ts) ∧
    ((∀ st', fails (sleep sleep_real st')) → length new ≤ 1).
Proof.
  revert st last_q1 last_q2 rows.
  induction ts as [|t ts IH]; intros st l1 l2 rows; cbn [control_loop].
  { exists []. rewrite app_nil_r. split_and!; simpl; auto with lia. }
  assert (∀ (e : raised) (st' : lab), ∃ new,
    (@Fails lab unit e st', rows).2 = rows ++ new ∧
    time_s <$> new = take (length new) (t :: ts) ∧
    length new ≤ length (t :: ts) ∧
    Forall (λ r, SP1 r = sp1_at (time_s r) ∧ SP2 r = sp2_at (time_s r)) new ∧
    controlled deadband l1 l2 new ∧
    (returns (@Fails lab unit e st', rows).1 → length new = length (t :: ts)) ∧
    ((∀ st', fails (sleep sleep_real st')) → length new ≤ 1)) as Hstop.
  { intros e st'. exists []. rewrite app_nil_r.
    split_and!; simpl; auto with lia.
    intros (v & st'' & Hr). discriminate. }
  destruct (read_T1 st) as [v1 st1|e st1]; cbn [attempt]; [|apply Hstop].
  destruct (read_T2 st1) as [v2 st2|e st2]; cbn [attempt]; [|apply Hstop].
  destruct (set_Q1 st2 _) as [[] st3|e st3]; cbn [attempt]; [|apply Hstop].
  destruct (set_Q2 st3 _) as [[] st4|e st4]; cbn [attempt]; [|apply Hstop].
  clear Hstop.
  destruct (sleep sleep_real st4) as [[] st5|e st5] eqn:Hsleep; cbn [attempt].
  - match goal with
    | |- context [control_loop _ _ _ _ _ _ _ ts ?s ?a ?b (rows ++ [?r])] =>
        destruct (IH s a b (rows ++ [r]))
          as (new & Heq & Ht & Hlen & Hsp & Hc & Hret & Hfail);
        exists (r :: new)
    end.
    rewrite Heq, <- app_assoc. split_and!.
    + done.
    + csimpl. by rewrite Ht.
    + simpl. lia.
    + by constructor.
    + simpl. done.
    + intros Hr. simpl. by rewrite Hret.
    + intros Hf. destruct (Hf st4) as (e & st' & He). congruence.
  - eexists [_]. split_and!; simpl; auto with lia.
    intros (v & st'' & Hr). discriminate.
Qed.

(** When no call of the loop raises, the loop runs out. *)
Lemma control_loop_returns sleep_real deadband ts st last_q1 last_q2 rows :
  (∀ st', returns (read_T1 st')) → (∀ st', returns (read_T2 st')) →
  (∀ st' q, returns (set_Q1 st' q)) → (∀ st' q, returns (set_Q2 st' q)) →
  (∀ st', returns (sleep sleep_real st')) →
  returns (control_loop read_T1 read_T2 set_Q1 set_Q2 sleep sleep_real
             deadband ts st last_q1 last_q2 rows).1.
Proof.
  intros H1 H2 H3 H4 H5. revert st last_q1 last_q2 rows.
  induction ts as [|t ts IH]; intros st l1 l2 rows; cbn [control_loop].
  { by exists tt, st. }
  destruct (H1 st) as (v1 & st1 & ->); cbn [attempt].
  destruct (H2 st1) as (v2 & st2 & ->); cbn [attempt].
  match goal with
  | |- context [set_Q1 st2 ?q] => destruct (H3 st2 q) as ([] & st3 & ->)
  end; cbn [attempt].
  match goal with
  | |- context [set_Q2 st3 ?q] => destruct (H4 st3 q) as ([] & st4 & ->)
  end; cbn [attempt].
  destruct (H5 st4) as ([] & st5 & ->); cbn [attempt].
  apply IH.
Qed.

(** The rows of [main] are those of its loop, if it gets there. *)
Lemma simulate_loop total_seconds accelerate deadband st0 :
  (simulate TCLab read_T1 read_T2 set_Q1 set_Q2 sleep close
     total_seconds accelerate deadband st0).2 = [] ∨
  ∃ st,
    (simulate TCLab read_T1 read_T2 set_Q1 set_Q2 sleep close
       total_seconds accelerate deadband st0).2
    = (control_loop read_T1 read_T2 set_Q1 set_Q2 sleep (1 / accelerate)
         deadband (range total_seconds) st 0%Z 0%Z []).2.
Proof.
  unfold simulate. destruct (accelerate =? 0)%float; [by left|].
  destruct (TCLab st0) as [[] st1|e st1]; cbn [attempt]; [|by left].
  destruct (set_Q1 st1 0%Z) as [[] st2|e st2]; cbn [attempt]; [|by left].
  destruct (set_Q2 st2 0%Z) as [[] st3|e st3]; cbn [attempt]; [|by left].
  right. exists st3.
  by destruct (control_loop _ _ _ _ _ _ _ _ _ _ _ _).1 as [? ?|[|?] ?].
Qed.

(** X20. The rows that [main] collects are one per second from 0 on,
    without a gap, for [total_seconds] at most (none for a negative
    [total_seconds]): they carry the times 0, 1, 2, ... and the setpoints
    of their time. When the division and every call return, there is a row
    for each of the [total_seconds] and the [try] statement ends without an
    exception; when [time.sleep] raises for [sleep_real], as it does for a
    negative or NaN one, the loop ends at its first sleep and there is one
    row at most. *)
Theorem simulate_rows (total_seconds : Z) (accelerate deadband : float)
    (st0 : lab) :
  length (simulate TCLab read_T1 read_T2 set_Q1 set_Q2 sleep close
            total_seconds accelerate deadband st0).2
  ≤ Z.to_nat total_seconds ∧
  time_s <$> (simulate TCLab read_T1 read_T2 set_Q1 set_Q2 sleep close
                total_seconds accelerate deadband st0).2
  = Z.of_nat <$> seq 0 (length (simulate TCLab read_T1 read_T2 set_Q1 set_Q2
                                  sleep close total_seconds accelerate
                                  deadband st0).2) ∧
  Forall (λ r, SP1 r = sp1_at (time_s r) ∧ SP2 r = sp2_at (time_s r))
    (simulate TCLab read_T1 read_T2 set_Q1 set_Q2 sleep close
       total_seconds accelerate deadband st0).2 ∧
  ((accelerate =? 0)%float = false →
   (∀ st, returns (TCLab st)) →
   (∀ st, returns (read_T1 st)) → (∀ st, returns (read_T2 st)) →
   (∀ st q, returns (set_Q1 st q)) → (∀ st q, returns (set_Q2 st q)) →
   (∀ st, returns (sleep (1 / accelerate) st)) → (∀ st, returns (close st)) →
   length (simulate TCLab read_T1 read_T2 set_Q1 set_Q2 sleep close
             total_seconds accelerate deadband st0).2
   = Z.to_nat total_seconds ∧
   returns (simulate TCLab read_T1 read_T2 set_Q1 set_Q2 sleep close
              total_seconds accelerate deadband st0).1) ∧
  ((∀ st, fails (sleep (1 / accelerate) st)) →
   length (simulate TCLab read_T1 read_T2 set_Q1 set_Q2 sleep close
             total_seconds accelerate deadband st0).2 ≤ 1).
Proof.
  split_and!.
  - destruct (simulate_loop total_seconds accelerate deadband st0)
      as [->|[st ->]]; [simpl; lia|].
    match goal with
    | |- context [control_loop _ _ _ _ _ ?sr ?d ?ts ?s ?a ?b ?r] =>
        destruct (control_loop_spec sr d ts s a b r) as (new & -> & _ & Hlen & _)
    end.
    by unfold range in Hlen; rewrite length_fmap, length_seq in Hlen.
  - destruct (simulate_loop total_seconds accelerate deadband st0)
      as [->|[st ->]]; [done|].
    match goal with
    | |- context [control_loop _ _ _ _ _ ?sr ?d ?ts ?s ?a ?b ?r] =>
        destruct (control_loop_spec sr d ts s a b r) as (new & -> & Ht & Hlen & _)
    end.
    unfold range in Ht, Hlen. rewrite length_fmap, length_seq in Hlen. simpl.
    rewrite Ht, <- fmap_take, take_seq. do 2 f_equal. lia.
  - destruct (simulate_loop total_seconds accelerate deadband st0)
      as [->|[st ->]]; [done|].
    match goal with
    | |- context [control_loop _ _ _ _ _ ?sr ?d ?ts ?s ?a ?b ?r] =>
        by destruct (control_loop_spec sr d ts s a b r) as (new & -> & _ & _ & Hsp & _)
    end.
  - intros Hacc H0 H1 H2 H3 H4 H5 H6. unfold simulate. rewrite Hacc.
    destruct (H0 st0) as ([] & st1 & ->); cbn [attempt].
    destruct (H3 st1 0%Z) as ([] & st2 & ->); cbn [attempt].
    destruct (H4 st2 0%Z) as ([] & st3 & ->); cbn [attempt].
    pose proof (control_loop_returns (1 / accelerate) deadband
                  (range total_seconds) st3 0%Z 0%Z []
                  H1 H2 H3 H4 H5) as Hret.
    destruct (control_loop_spec (1 / accelerate) deadband
                (range total_seconds) st3 0%Z 0%Z [])
      as (new & Heq & _ & _ & _ & _ & Hall & _).
    specialize (Hall Hret). unfold range in Hall.
    rewrite length_fmap, length_seq in Hall.
    destruct Hret as ([] & st4 & Hret). rewrite Hret. cbn [fst snd].
    rewrite Heq. split; [done|].
    unfold finally_block.
    destruct (H3 st4 0%Z) as ([] & st5 & ->); cbn [and_then].
    destruct (H4 st5 0%Z) as ([] & st6 & ->); cbn [and_then].
    apply H6.
  - intros Hf.
    destruct (simulate_loop total_seconds accelerate deadband st0)
      as [->|[st ->]]; [simpl; lia|].
    match goal with
    | |- context [control_loop _ _ _ _ _ ?sr ?d ?ts ?s ?a ?b ?r] =>
        destruct (control_loop_spec sr d ts s a b r)
          as (new & -> & _ & _ & _ & _ & _ & Hone)
    end.
    by apply Hone.
Qed.

(** X21. Every actuator value of every row that [main] collects is 0 or
    100, for both heaters, whatever the lab returns as temperatures,
    whatever the deadband and however the loop ends. *)
Theorem simulate_actuators (total_seconds : Z) (accelerate deadband : float)
    (st0 : lab) :
  Forall (λ r, (Q1 r = 0 ∨ Q1 r = 100) ∧ (Q2 r = 0 ∨ Q2 r = 100))%Z
    (simulate TCLab read_T1 read_T2 set_Q1 set_Q2 sleep close
       total_seconds accelerate deadband st0).2.
Proof.
  destruct (simulate_loop total_seconds accelerate deadband st0)
    as [->|[st ->]]; [done|].
  match goal with
  | |- context [control_loop _ _ _ _ _ ?sr ?d ?ts ?s ?a ?b ?r] =>
      destruct (control_loop_spec sr d ts s a b r)
        as (new & Heq & _ & _ & _ & Hc & _)
  end.
  rewrite Heq. simpl. apply (controlled_range deadband 0 0)%Z; auto.
Qed.

(** X22. In the rows that [main] collects a heater switches only outside
    the band: when [Q1] of a row differs from [Q1] of the row before (from
    0 for the first row), it is 100 with [T1 < SP1 - deadband] or it is 0
    with [T1 > SP1 + deadband]; inside the band the previous value is
    kept. The same holds for [Q2] with [T2] and [SP2]. *)
Theorem simulate_hysteresis (total_seconds : Z) (accelerate deadband : float)
    (st0 : lab) :
  controlled deadband 0%Z 0%Z
    (simulate TCLab read_T1 read_T2 set_Q1 set_Q2 sleep close
       total_seconds accelerate deadband st0).2 ∧
  ∀ i r,
    (simulate TCLab read_T1 read_T2 set_Q1 set_Q2 sleep close
       total_seconds accelerate deadband st0).2 !! i = Some r →
    (Q1 r ≠ q1_before (simulate TCLab read_T1 read_T2 set_Q1 set_Q2 sleep close
                         total_seconds accelerate deadband st0).2 i →
     (Q1 r = 100%Z ∧ (T1 r <? int_to_float (SP1 r) - deadband)%float = true) ∨
     (Q1 r = 0%Z ∧ (int_to_float (SP1 r) + deadband <? T1 r)%float = true)) ∧
    (Q2 r ≠ q2_before (simulate TCLab read_T1 read_T2 set_Q1 set_Q2 sleep close
                         total_seconds accelerate deadband st0).2 i →
     (Q2 r = 100%Z ∧ (T2 r <? int_to_float (SP2 r) - deadband)%float = true) ∨
     (Q2 r = 0%Z ∧ (int_to_float (SP2 r) + deadband <? T2 r)%float = true)).
Proof.
  assert (controlled deadband 0%Z 0%Z
    (simulate TCLab read_T1 read_T2 set_Q1 set_Q2 sleep close
       total_seconds accelerate deadband st0).2) as Hc.
  { destruct (simulate_loop total_seconds accelerate deadband st0)
      as [->|[st ->]]; [done|].
    match goal with
    | |- context [control_loop _ _ _ _ _ ?sr ?d ?ts ?s ?a ?b ?r] =>
        destruct (control_loop_spec sr d ts s a b r)
          as (new & Heq & _ & _ & _ & Hc & _)
    end.
    by rewrite Heq. }
  split; [done|]. intros i r Hi.
  destruct (controlled_lookup _ _ _ _ Hc Hi) as [H1 H2].
  split; intros Hne.
  - rewrite H1 in Hne |- *. by apply onoff_control_switch.
  - rewrite H2 in Hne |- *. by apply onoff_control_switch.
Qed.

End tclab_facts.

Lemma simulate_rows_witness :
  (length (simulate steady_lab.TCLab steady_lab.read_T1 steady_lab.read_T2
             steady_lab.set_Q steady_lab.set_Q steady_lab.sleep
             steady_lab.close 3 1%float 0.5%float 0).2 = 3 ∧
   returns (simulate steady_lab.TCLab steady_lab.read_T1 steady_lab.read_T2
              steady_lab.set_Q steady_lab.set_Q steady_lab.sleep
              steady_lab.close 3 1%float 0.5%float 0).1) ∧
  length (simulate steady_lab.TCLab steady_lab.read_T1 steady_lab.read_T2
            steady_lab.set_Q steady_lab.set_Q steady_lab.sleep
            steady_lab.close 3 (-1)%float 0.5%float 0).2 ≤ 1.
Proof.
  split.
  - apply (proj1 (proj2 (proj2 (proj2
      (simulate_rows steady_lab.TCLab steady_lab.read_T1 steady_lab.read_T2
         steady_lab.set_Q steady_lab.set_Q steady_lab.sleep steady_lab.close
         3 1%float 0.5%float 0)))));
      first [reflexivity | by intros; eexists _, _].
  - apply (proj2 (proj2 (proj2 (proj2
      (simulate_rows steady_lab.TCLab steady_lab.read_T1 steady_lab.read_T2
         steady_lab.set_Q steady_lab.set_Q steady_lab.sleep steady_lab.close
         3 (-1)%float 0.5%float 0))))).
    intros st. by eexists _, _.
Defined.
